(** * Auto-PDF-Watermark-Remover: the per-image watermark removal

    A shallow embedding of [remove_watermark_from_image]
    (src/watermarkrm-auto.py, lines 116-242) and the properties of its
    four stages: dominant colour detection, tolerance mask, mask
    refinement and compositing.

    Arrays are lists of rows; a pixel is the triple of its three 8-bit
    channels in the order the array stores them (OpenCV: B, G, R).
    8-bit and 16-bit values are integers of [Z] with the wrap-around of
    each numpy operation written out. *)

From Stdlib Require Import ZArith Lia List Bool.
From Stdlib Require Import String Ascii DecimalString.
From stdpp Require Import base list sorting strings gmap.

Local Open Scope Z_scope.

(** ** Data model *)

Abbreviation pixel := (Z * Z * Z)%type (only parsing).

Abbreviation grid A := (list (list A)) (only parsing).

Abbreviation image := (list (list (Z * Z * Z))) (only parsing).

(** An 8-bit value, a pixel of 8-bit channels, an image of such pixels. *)
Definition is_u8 (v : Z) : Prop := 0 <= v <= 255.

Definition is_pixel (p : pixel) : Prop :=
  let '(c0, c1, c2) := p in is_u8 c0 /\ is_u8 c1 /\ is_u8 c2.

Definition is_image (img : image) : Prop := Forall (Forall is_pixel) img.

Definition is_mask (m : grid Z) : Prop := Forall (Forall is_u8) m.

(** Row lengths: the [shape] of a numpy array whose rows are the lists. *)
Definition shape {A} (g : grid A) : list nat := length <$> g.

(** [g[y, x]], when the index is inside the array. *)
Definition at2 {A} (g : grid A) (y x : nat) : option A :=
  g !! y ≫= (.!! x).

(** The pixels a mask selects: the code tests [mask > 0] everywhere. *)
Definition selected (m : grid Z) (y x : nat) : Prop :=
  exists v, at2 m y x = Some v /\ 0 < v.

(** Element-wise operations on one array and on two arrays. *)
Definition grid_map {A B} (f : A -> B) (g : grid A) : grid B :=
  fmap (M := list) f <$> g.

Definition grid_zip_with {A B C} (f : A -> B -> C) (g : grid A) (k : grid B)
    : grid C :=
  zip_with (zip_with f) g k.

Definition max3 (a b c : Z) : Z := Z.max (Z.max a b) c.
Definition min3 (a b c : Z) : Z := Z.min (Z.min a b) c.

(** ** Dominant colour detection (lines 135-162) *)

(** [cv2.calcHist([img], [0,1,2], None, [8,8,8], [0,256,0,256,0,256])]:
    channel k of the image indexes axis k of the histogram, a value v
    falls in bucket v / 32, and [flatten] lays the 8x8x8 cube out
    row-major. *)
Definition flat_bin (p : pixel) : nat :=
  let '(c0, c1, c2) := p in
  Z.to_nat ((c0 / 32) * 64 + (c1 / 32) * 8 + c2 / 32).

Definition count_bin (pixels : list pixel) (idx : nat) : Z :=
  Z.of_nat (length (filter (fun p => flat_bin p = idx) pixels)).

(** The histogram of [cv2.calcHist], flattened: the exact count of
    every bin. *)
Definition calcHist (img : image) : list Z :=
  count_bin (concat img) <$> seq 0 512.

(** One sort of the indices by ascending value, by merging. It is the
    order in which the examples run and in which [watermark_color_rgb]
    below scans the counts themselves. The code sorts the values of
    [cv2.normalize] with [np.argsort], see [sorted_indices_with]: the
    rounding can give bins of different counts one value, and bins of
    one value come in an order numpy leaves open. The mask of the
    function has every cell set whichever bin the scan stops at, so
    the function returns the same image for every such order
    ([remove_watermark_any_order]). *)
Definition key_le (a b : Z * nat) : Prop := a.1 <= b.1.

#[local] Instance key_le_dec a b : Decision (key_le a b).
Proof. unfold key_le. apply _. Defined.

Definition argsort (hist : list Z) : list nat :=
  snd <$> merge_sort key_le (zip hist (seq 0 (length hist))).

(** [np.argsort(hist)[::-1]] *)
Definition sorted_indices (img : image) : list nat :=
  reverse (argsort (calcHist img)).

(** [np.unravel_index(idx, (8, 8, 8))] *)
Definition unravel_index (idx : nat) : Z * Z * Z :=
  let i := Z.of_nat idx in (i / 64, (i / 8) mod 8, i mod 8).

(** The centre the loop computes for a bin, named as the code names it. *)
Definition bin_center (idx : nat) : Z * Z * Z :=
  let '(r_bin, g_bin, b_bin) := unravel_index idx in
  (r_bin * 32 + 16, g_bin * 32 + 16, b_bin * 32 + 16).

Definition color_diff3 (c : Z * Z * Z) : Z :=
  let '(r, g, b) := c in max3 r g b - min3 r g b.

Definition channel_sum (c : Z * Z * Z) : Z :=
  let '(r, g, b) := c in r + g + b.

(** The loop of lines 143-158: [continue] on a dark or a near-gray
    centre, [break] with the first centre that is neither. [None] is the
    initial [watermark_color_rgb = None] left in place. *)
Fixpoint scan_bins (indices : list nat) : option (Z * Z * Z) :=
  match indices with
  | [] => None
  | idx :: rest =>
      let c := bin_center idx in
      if channel_sum c <? 150 then scan_bins rest
      else if color_diff3 c <? 20 then scan_bins rest
      else Some c
  end.

Definition fallback_color : Z * Z * Z := (230, 230, 230).

(** Lines 142-162: the detected (r, g, b) tuple. *)
Definition watermark_color_of (indices : list nat) : Z * Z * Z :=
  match scan_bins indices with
  | Some c => c
  | None => fallback_color
  end.

Definition watermark_color_rgb (img : image) : Z * Z * Z :=
  watermark_color_of (sorted_indices img).

(** Lines 135-162 for any rounding and any order of equal values.
    [normalize] stands for the conversion of the counts to single
    precision and [cv2.normalize(hist, hist).flatten()]: it takes the
    counts to the values the code sorts, of a type K of their own.
    [np_argsort] stands for [np.argsort]. *)
Section Detector.

Context {K : Type}.
Variable normalize : list Z -> list K.
Variable np_argsort : list K -> list nat.

Definition hist_with (img : image) : list K := normalize (calcHist img).

Definition sorted_indices_with (img : image) : list nat :=
  reverse (np_argsort (hist_with img)).

Definition watermark_color_rgb_with (img : image) : Z * Z * Z :=
  watermark_color_of (sorted_indices_with img).

End Detector.

(** What the two library functions are known to do: [cv2.normalize]
    returns an array of the size of its input, and rounds a larger
    count to a value that is not smaller; [np.argsort] returns the
    indices of its input, each once, in ascending order of the values
    they index. *)
Definition keeps_length {K} (normalize : list Z -> list K) : Prop :=
  forall h, length (normalize h) = length h.


Definition sorts_ascending {K} (le : relation K)
    (np_argsort : list K -> list nat) : Prop :=
  forall h,
    np_argsort h ≡ₚ seq 0 (length h)
    /\ forall i j a b fa fb,
         (i < j)%nat ->
         np_argsort h !! i = Some a -> np_argsort h !! j = Some b ->
         h !! a = Some fa -> h !! b = Some fb -> le fa fb.

(** The two filters of the scan as one test on a bin. *)
Definition passes_filters (idx : nat) : bool :=
  negb (channel_sum (bin_center idx) <? 150)
  && negb (color_diff3 (bin_center idx) <? 20).

(** ** Tolerance mask (lines 165-186) *)

(** [np.int16] arithmetic, [np.clip] and [astype(np.uint8)]. *)
Definition wrap16 (z : Z) : Z := (z + 32768) mod 65536 - 32768.

Definition np_clip (x lo hi : Z) : Z := Z.min (Z.max x lo) hi.

Definition astype_uint8 (z : Z) : Z := z mod 256.

Definition map3 (f : Z -> Z) (c : Z * Z * Z) : Z * Z * Z :=
  let '(c0, c1, c2) := c in (f c0, f c1, f c2).

Definition tol : Z := 80.

(** [r, g, b = watermark_color_rgb; np.array([b, g, r], dtype=np.int16)] *)
Definition target_bgr (rgb : Z * Z * Z) : Z * Z * Z :=
  let '(r, g, b) := rgb in (wrap16 b, wrap16 g, wrap16 r).

(** [np.clip(target_bgr - tol * i, 0, 255).astype(np.uint8)] and its
    upper counterpart. *)
Definition lower_bgr (target : Z * Z * Z) (i : Z) : Z * Z * Z :=
  map3 (fun c => astype_uint8 (np_clip (wrap16 (c - tol * i)) 0 255)) target.

Definition upper_bgr (target : Z * Z * Z) (i : Z) : Z * Z * Z :=
  map3 (fun c => astype_uint8 (np_clip (wrap16 (c + tol * i)) 0 255)) target.

(** One pixel of [cv2.inRange]: 255 when every channel lies between the
    bounds, both included, and 0 otherwise. *)
Definition in_range (p lo hi : Z * Z * Z) : bool :=
  let '(p0, p1, p2) := p in
  let '(l0, l1, l2) := lo in
  let '(u0, u1, u2) := hi in
  (l0 <=? p0) && (p0 <=? u0) && (l1 <=? p1) && (p1 <=? u1)
  && (l2 <=? p2) && (p2 <=? u2).

Definition inRange (img : image) (lo hi : Z * Z * Z) : grid Z :=
  grid_map (fun p => if in_range p lo hi then 255 else 0) img.

(** The mask of one tolerance band. *)
Definition band_mask (img : image) (target : Z * Z * Z) (i : Z) : grid Z :=
  inRange img (lower_bgr target i) (upper_bgr target i).

(** [mask += other] on uint8 arrays: the sum wraps modulo 256. *)
Definition add_u8 (a b : Z) : Z := (a + b) mod 256.

Definition mask_add (mask other : grid Z) : grid Z :=
  grid_zip_with add_u8 mask other.

(** The loop [for i in multipliers: mask += cv2.inRange(...)]. *)
Definition accumulate (img : image) (target : Z * Z * Z)
    (multipliers : list Z) (mask : grid Z) : grid Z :=
  fold_left (fun m i => mask_add m (band_mask img target i)) multipliers mask.

(** Lines 166-181 with the loop running over [range(1, n + 1)]; the
    code has n = 3. The initial mask of line 175 is built with
    [tol] itself, which is the band of multiplier 1. *)
Definition tolerance_mask_upto (n : nat) (img : image) (rgb : Z * Z * Z)
    : grid Z :=
  let target := target_bgr rgb in
  accumulate img target (Z.of_nat <$> seq 1 n) (band_mask img target 1).

Definition tolerance_mask (img : image) (rgb : Z * Z * Z) : grid Z :=
  tolerance_mask_upto 3 img rgb.

(** [cv2.getStructuringElement(cv2.MORPH_ELLIPSE, (5, 5))], anchored at
    its centre (2, 2). *)
Definition kernel : grid Z :=
  [ [0; 0; 1; 0; 0];
    [1; 1; 1; 1; 1];
    [1; 1; 1; 1; 1];
    [1; 1; 1; 1; 1];
    [0; 0; 1; 0; 0] ].

Definition enumerate {A} (l : list A) : list (nat * A) := imap pair l.

(** The offsets (dy, dx) of the kernel's set cells from its anchor. *)
Definition kernel_offsets : list (Z * Z) :=
  '(ky, row) ← enumerate kernel;
  '(kx, e) ← enumerate row;
  if e =? 0 then [] else [(Z.of_nat ky - 2, Z.of_nat kx - 2)].

Definition at2z (m : grid Z) (y x : Z) : option Z :=
  if (0 <=? y) && (0 <=? x) then at2 m (Z.to_nat y) (Z.to_nat x) else None.

(** The mask values under the kernel centred at (y, x). The default
    border of OpenCV's morphology leaves the cells outside the image
    out of the maximum and of the minimum. *)
Definition window (m : grid Z) (y x : nat) : list Z :=
  omap (fun d : Z * Z => at2z m (Z.of_nat y + d.1) (Z.of_nat x + d.2))
       kernel_offsets.

Definition dilate1 (m : grid Z) : grid Z :=
  imap (fun y row => imap (fun x v => foldr Z.max v (window m y x)) row) m.

Definition erode1 (m : grid Z) : grid Z :=
  imap (fun y row => imap (fun x v => foldr Z.min v (window m y x)) row) m.

(** [cv2.dilate(mask, kernel, iterations=n)] *)
Definition dilate (m : grid Z) (iterations : nat) : grid Z :=
  Nat.iter iterations dilate1 m.

(** [cv2.morphologyEx(mask, cv2.MORPH_CLOSE, kernel, iterations=1)]:
    a dilation followed by an erosion. *)
Definition morph_close (m : grid Z) : grid Z := erode1 (dilate1 m).

(** Lines 166-186 for a given detected colour. *)
Definition build_mask (img : image) (rgb : Z * Z * Z) : grid Z :=
  dilate (morph_close (tolerance_mask img rgb)) 5.

(** [np.sum(mask)]: numpy adds uint8 values in a 64-bit unsigned
    accumulator. *)
Definition np_sum (m : grid Z) : Z := foldr Z.add 0 (concat m) mod 2 ^ 64.

(** ** Colour conversion *)

(** [cv2.cvtColor(img, cv2.COLOR_BGR2HSV)] on 8-bit pixels is integer
    arithmetic: V is the largest channel, S and H come from two tables
    of rounded quotients in 12-bit fixed point, and H is halved into
    [0, 180). *)
Definition round_div (a b : Z) : Z := (2 * a + b) / (2 * b).

Definition sdiv_table (i : Z) : Z :=
  if i =? 0 then 0 else round_div (255 * 4096) i.

Definition hdiv_table180 (i : Z) : Z :=
  if i =? 0 then 0 else round_div (180 * 4096) (6 * i).

Definition bgr2hsv (p : pixel) : Z * Z * Z :=
  let '(b, g, r) := p in
  let v := max3 b g r in
  let vmin := min3 b g r in
  let diff := v - vmin in
  let s := Z.shiftr (diff * sdiv_table v + 2048) 12 in
  let h0 := if v =? r then g - b
            else if v =? g then b - r + 2 * diff
            else r - g + 4 * diff in
  let h1 := Z.shiftr (h0 * hdiv_table180 diff + 2048) 12 in
  let h := if h1 <? 0 then h1 + 180 else h1 in
  (h, s, v).

(** The channel spread of an original pixel as line 227 computes it,
    [np.max - np.min] in uint8. *)
Definition color_diff_u8 (p : pixel) : Z :=
  let '(c0, c1, c2) := p in (max3 c0 c1 c2 - min3 c0 c1 c2) mod 256.

Definition white : pixel := (255, 255, 255).

(** ** Fancy indexing *)

(** [np.where(m > 0)]: the coordinates of the set cells, row by row. *)
Definition np_where (m : grid Z) : list (nat * nat) :=
  '(y, row) ← enumerate m;
  '(x, v) ← enumerate row;
  if 0 <? v then [(y, x)] else [].

Definition get_px (g : image) (yx : nat * nat) : pixel :=
  default (0, 0, 0) (at2 g yx.1 yx.2).

(** [g[y, x] = p]; a write outside the array, which numpy refuses, is
    left without effect. *)
Definition set_px (g : image) (yx : nat * nat) (p : pixel) : image :=
  alter (fun row => <[yx.2 := p]> row) yx.1 g.

(** [g[m > 0]]: the pixels at the set cells of m, in the order of
    [np.where]. *)
Definition boolean_index (g : image) (m : grid Z) : list pixel :=
  get_px g <$> np_where m.

(** [g[m > 0] = values]: the k-th value goes to the k-th set cell. *)
Definition boolean_assign (g : image) (m : grid Z) (values : list pixel)
    : image :=
  fold_left (fun res e => set_px res e.1 e.2) (zip (np_where m) values) g.

(** ** Refinement and compositing (lines 194-242) *)

(** [hsv_adjusted[mask > 0, 1] = 0] *)
Definition desaturate (mask : grid Z) (hsv : grid (Z * Z * Z))
    : grid (Z * Z * Z) :=
  grid_zip_with
    (fun (m : Z) (c : Z * Z * Z) => if 0 <? m then (c.1.1, 0, c.2) else c)
    mask hsv.

Definition hsv_adjusted_of (img : image) (mask : grid Z) : grid (Z * Z * Z) :=
  desaturate mask (grid_map bgr2hsv img).

(** Lines 204-209: a copy of the mask, cleared where the adjusted
    saturation exceeds 30 and where the value is below 175. *)
Definition refine (mask : grid Z) (hsv_adjusted : grid (Z * Z * Z)) : grid Z :=
  let sat_channel := grid_map (fun c : Z * Z * Z => c.1.2) hsv_adjusted in
  let val_channel := grid_map (fun c : Z * Z * Z => c.2) hsv_adjusted in
  let refined_mask := mask in
  let refined_mask :=
    grid_zip_with (fun r s => if 30 <? s then 0 else r)
                  refined_mask sat_channel in
  grid_zip_with (fun r v => if v <? 175 then 0 else r)
                refined_mask val_channel.

Definition refined_mask_of (img : image) (mask : grid Z) : grid Z :=
  refine mask (hsv_adjusted_of img mask).

(** [cv2.bitwise_and(mask, cv2.bitwise_not(refined_mask))] on uint8. *)
Definition bitwise_not (v : Z) : Z := Z.lxor v 255.

Definition text_mask_of (img : image) (mask : grid Z) : grid Z :=
  grid_zip_with (fun m r => Z.land m (bitwise_not r))
                mask (refined_mask_of img mask).

(** The loop of lines 231-234. *)
Definition whiten (result : image) (keep_mask : list bool)
    (y_coords x_coords : list nat) : image :=
  fold_left
    (fun res (e : nat * bool) =>
       if e.2 then set_px res (nth e.1 y_coords 0%nat, nth e.1 x_coords 0%nat)
                          white
       else res)
    (enumerate keep_mask) result.

(** Which [return] the function leaves through: line 192 or 242. *)
Inductive exit_path : Type := ReturnOriginal | ReturnResult.

(** Lines 135-186: the mask of an image, from its own detected colour. *)
Definition watermark_mask (img : image) : grid Z :=
  build_mask img (watermark_color_rgb img).

Section Compositor.

(** [cv2.cvtColor(hsv, cv2.COLOR_HSV2BGR)] on 8-bit pixels goes
    through single-precision floating point. With zero saturation the
    three channels are the value itself. For a triple with saturation
    the conversion is a parameter of the development, a function of the
    triple; OpenCV's rounding there can also depend on where the pixel
    lies in its row, which the parameter does not express. It is read
    at the cells a mask leaves unset only, and the mask of the function
    leaves none: the results on the function hold for every value of
    the parameter. *)
Variable hsv2bgr_chroma : Z -> Z -> Z -> pixel.

Definition hsv2bgr (c : Z * Z * Z) : pixel :=
  let '(h, s, v) := c in
  if s =? 0 then (v, v, v) else hsv2bgr_chroma h s v.

(** The desaturated image of line 202. *)
Definition desaturated_of (img : image) (mask : grid Z) : image :=
  grid_map hsv2bgr (hsv_adjusted_of img mask).

(** Lines 194-242, reached with a mask that has a set cell. *)
Definition composite (img : image) (mask : grid Z) : image :=
  let original_img := img in
  let result := desaturated_of img mask in
  let refined_mask := refined_mask_of img mask in
  let text_mask := text_mask_of img mask in
  let result :=
    boolean_assign result text_mask (boolean_index original_img text_mask) in
  let pixels := boolean_index original_img refined_mask in
  let color_diffs := color_diff_u8 <$> pixels in
  let keep_mask := (fun d => 50 <=? d) <$> color_diffs in
  let coords := np_where refined_mask in
  let y_coords := fst <$> coords in
  let x_coords := snd <$> coords in
  whiten result keep_mask y_coords x_coords.

(** Lines 188-242 for a mask already built. *)
Definition finish (img : image) (mask : grid Z) : exit_path * image :=
  let original_img := img in
  if np_sum mask =? 0 then (ReturnOriginal, original_img)
  else (ReturnResult, composite img mask).

(** Lines 116-242 on an image that has a pixel. On an image without a
    pixel [cv2.inRange] raises at line 175 and the function returns
    nothing; the properties of the function are stated for images that
    have a pixel. *)
Definition remove_watermark_trace (img : image) : exit_path * image :=
  finish img (watermark_mask img).

Definition remove_watermark_from_image (img : image) : image :=
  (remove_watermark_trace img).2.

End Compositor.

(** ** Vocabulary of the properties *)

(** The count of a bin: its entry in the histogram of [calcHist]. *)
Definition freq (img : image) (idx : nat) : Z := count_bin (concat img) idx.







(** One cell of a band mask and of the accumulated mask. *)
Definition band_px (target : Z * Z * Z) (i : Z) (p : pixel) : Z :=
  if in_range p (lower_bgr target i) (upper_bgr target i) then 255 else 0.

Definition acc_px (target : Z * Z * Z) (multipliers : list Z) (v0 : Z)
    (p : pixel) : Z :=
  fold_left (fun v i => add_u8 v (band_px target i p)) multipliers v0.

(** The tolerance bands as the specification words them: the inclusive
    range [target - tol*i, target + tol*i], clamped to [0, 255]. *)
Definition clamp (v : Z) : Z := Z.max 0 (Z.min 255 v).

Definition in_band (target : Z * Z * Z) (i : Z) (p : pixel) : bool :=
  let '(t0, t1, t2) := target in
  let '(p0, p1, p2) := p in
  (clamp (t0 - tol * i) <=? p0) && (p0 <=? clamp (t0 + tol * i))
  && (clamp (t1 - tol * i) <=? p1) && (p1 <=? clamp (t1 + tol * i))
  && (clamp (t2 - tol * i) <=? p2) && (p2 <=? clamp (t2 + tol * i)).

(** The logical union of the three bands, cell by cell. *)
Definition union_of_bands (img : image) (target : Z * Z * Z) : grid bool :=
  grid_map (fun p => in_band target 1 p || in_band target 2 p
                     || in_band target 3 p) img.

(** What a mask is read for: whether a cell is set ([mask > 0]). *)
Definition truthiness (m : grid Z) : grid bool := grid_map (fun v => 0 <? v) m.

(** The colours the detector can return. *)
Definition detectable (rgb : Z * Z * Z) : Prop :=
  let '(r, g, b) := rgb in
  16 <= r <= 240 /\ 16 <= g <= 240 /\ 16 <= b <= 240.

(** A run of cell writes, first to last. *)
Definition assign_all (g : image) (writes : list (nat * nat * pixel)) : image :=
  fold_left (fun res e => set_px res e.1 e.2) writes g.

(** The writes of the whitening loop: one per kept index. *)
Definition whiten_writes (keep_mask : list bool) (y_coords x_coords : list nat)
    : list (nat * nat * pixel) :=
  omap (fun e : nat * bool =>
          if e.2 then Some (nth e.1 y_coords 0%nat, nth e.1 x_coords 0%nat, white)
          else None)
       (enumerate keep_mask).

(** The adjusted HSV triple, the refined mask and the text mask at a
    cell whose mask value is m and whose original pixel is px. *)
Definition zero_saturation (c : Z * Z * Z) : Z * Z * Z := (c.1.1, 0, c.2).

Definition adj_px (m : Z) (px : pixel) : Z * Z * Z :=
  if 0 <? m then zero_saturation (bgr2hsv px) else bgr2hsv px.

Definition refined_px (m : Z) (px : pixel) : Z :=
  if (adj_px m px).2 <? 175 then 0
  else if 30 <? (adj_px m px).1.2 then 0 else m.

Definition text_px (m : Z) (px : pixel) : Z :=
  Z.land m (bitwise_not (refined_px m px)).

(** The output pixel of the compositing for a cell whose mask value is
    m and whose original pixel is px. *)
Definition composite_px (chroma : Z -> Z -> Z -> pixel) (m : Z) (px : pixel)
    : pixel :=
  if 0 <? refined_px m px then
    if 50 <=? color_diff_u8 px then white else hsv2bgr chroma (adj_px m px)
  else if 0 <? text_px m px then px
  else hsv2bgr chroma (adj_px m px).

(** The channel spread of a pixel, largest channel minus smallest, and
    its largest channel. *)
Definition channel_spread (p : pixel) : Z :=
  let '(c0, c1, c2) := p in max3 c0 c1 c2 - min3 c0 c1 c2.

Definition max_channel (p : pixel) : Z :=
  let '(c0, c1, c2) := p in max3 c0 c1 c2.

(** An image whose every pixel is (255,255,255). *)
Definition all_white (img : image) : Prop :=
  Forall (Forall (fun p : pixel => p = white)) img.

(** The images and masks of the examples. *)
Definition white_1x1 : image := [[(255, 255, 255)]].

Definition sample_image : image :=
  [[(255, 255, 255); (200, 200, 245); (10, 20, 30)];
   [(0, 1, 255); (180, 180, 180); (100, 200, 250)]].

Definition sample_mask : grid Z := [[255; 0; 255]; [254; 5; 0]].

(** The exact value of the chromatic branch of HSV2BGR, rounded to the
    nearest integer; used to run the examples. *)
Definition chroma_exact (h s v : Z) : pixel :=
  let sector := (h mod 180) / 30 in
  let m := (h mod 180) mod 30 in
  let tab0 := v in
  let tab1 := round_div (v * (255 - s)) 255 in
  let tab2 := round_div (v * (7650 - s * m)) 7650 in
  let tab3 := round_div (v * (7650 - s * (30 - m))) 7650 in
  if sector =? 0 then (tab1, tab3, tab0)
  else if sector =? 1 then (tab1, tab0, tab2)
  else if sector =? 2 then (tab3, tab0, tab1)
  else if sector =? 3 then (tab0, tab2, tab1)
  else if sector =? 4 then (tab0, tab1, tab3)
  else (tab2, tab1, tab0).

(** A mask of the shape of [sample_image] without a set cell. *)
Definition zero_mask : grid Z := [[0; 0; 0]; [0; 0; 0]].

(** ** The rest of the file: placeholder pages *)

(** What the function does to one pixel of an 8-bit image: a pixel
    darker than 175 is kept, a brighter one becomes white when its
    spread reaches 50 and its largest channel on all three channels
    otherwise. *)
Definition pixel_rule (px : pixel) : pixel :=
  if max_channel px <? 175 then px
  else if 50 <=? channel_spread px then white
  else (max_channel px, max_channel px, max_channel px).

(** One channel not below the other, on the three channels. *)
Definition pixel_le (p q : pixel) : Prop :=
  p.1.1 <= q.1.1 /\ p.1.2 <= q.1.2 /\ p.2 <= q.2.

(** Lines 183-186 on any mask: closing, then five dilations. *)
Definition close_and_dilate (m : grid Z) : grid Z := dilate (morph_close m) 5.

(** [np.ones((int(11*dpi), int(8.5*dpi), 3), dtype=np.uint8) * 255]
    (line 104), for a whole number of dots per inch: 8.5*dpi is 17*dpi
    halved, and [int] drops the half. *)
Definition blank_img (dpi : nat) : image :=
  replicate (11 * dpi) (replicate (17 * dpi / 2) white).

(** ** The rest of the file: the three steps on a document *)

(** [cv2.cvtColor] with [COLOR_RGB2BGR] or [COLOR_BGR2RGB]: the first
    and the third channel change places. *)
Definition swap_rb (p : pixel) : pixel := let '(c0, c1, c2) := p in (c2, c1, c0).

Definition cvt_swap (img : image) : image := grid_map swap_rb img.

(** How a call ends: with a value, with an exception of class
    [Exception] (the ones [main] catches), or with [sys.exit], whose
    [SystemExit] is not of that class. *)
Inductive outcome (A : Type) : Type :=
| Returned (a : A)
| Raised
| SystemExit (code : Z).

Arguments Returned {A} a.
Arguments Raised {A}.
Arguments SystemExit {A} code.

(** What the renderer does on one page: the pixmap, or the failure, of
    each of the three calls of lines 67, 73 and 76. *)
Record page_render (pixmap : Type) : Type := {
  with_matrix : option pixmap;
  without_annots : option pixmap;
  with_defaults : option pixmap
}.

Arguments with_matrix {pixmap} _.
Arguments without_annots {pixmap} _.
Arguments with_defaults {pixmap} _.

(** A PDF file: its name, and its pages when [fitz.open] accepts it. A
    page is [None] when [pdf_document[page_num]] raises. *)
Record document (pixmap : Type) : Type := {
  pdf_name : string;
  pdf_pages : option (list (option (page_render pixmap)))
}.

Arguments pdf_name {pixmap} _.
Arguments pdf_pages {pixmap} _.

Section Steps.

Context {pixmap : Type}.

(** [cv2.imdecode] on the PPM bytes of a pixmap ([None] as in the
    code), and [Image.frombytes] on its samples as an RGB array
    ([None] when it raises). *)
Variable imdecode : pixmap -> option image.
Variable pil_frombytes : pixmap -> option image.
Variable chroma : Z -> Z -> Z -> pixel.
Variable dpi : nat.

(** Lines 66-76: the first of the three calls that does not raise. *)
Definition get_pixmap (r : page_render pixmap) : option pixmap :=
  match with_matrix r with
  | Some pix => Some pix
  | None =>
      match without_annots r with
      | Some pix => Some pix
      | None => with_defaults r
      end
  end.

(** Lines 79-85: the decoded array, or the PIL image turned to BGR. *)
Definition decode_pixmap (pix : pixmap) : option image :=
  match imdecode pix with
  | Some img_array => Some img_array
  | None => cvt_swap <$> pil_frombytes pix
  end.

(** Lines 59-85: the array of a page, [None] when an exception reaches
    the [except] of line 97. *)
Definition decode_page (p : option (page_render pixmap)) : option image :=
  match p with
  | None => None
  | Some r =>
      match get_pixmap r with
      | None => None
      | Some pix => decode_pixmap pix
      end
  end.

(** The body of the page loop with [debug=False] (lines 59-106): any
    exception leaves the blank placeholder in the page's place. *)
Definition extract_page (p : option (page_render pixmap)) : image :=
  match decode_page p with
  | Some img_array => img_array
  | None => blank_img dpi
  end.

(** [extract_pdf_to_images(pdf, None, debug=False)] *)
Definition extract_pdf_to_images (d : document pixmap) : outcome (list image) :=
  match pdf_pages d with
  | None => SystemExit 1
  | Some pages =>
      Returned (fold_left (fun image_data p => image_data ++ [extract_page p])
                          pages [])
  end.

(** [process_images_in_folder(image_arrays, None, debug=False)] *)
Definition process_images_in_folder (input_data : list image) : list image :=
  fold_left
    (fun processed_images img_array =>
       processed_images ++ [remove_watermark_from_image chroma img_array])
    input_data [].

(** [rebuild_pdf_from_images(processed_arrays, output_pdf, debug=False)]:
    the pages handed to the PDF writer, first image and appended
    images; [pil_images[0]] raises on an empty list. *)
Definition rebuild_pdf_from_images (image_data : list image)
    : outcome (list image) :=
  let pil_images :=
    fold_left (fun acc img_array => acc ++ [cvt_swap img_array]) image_data [] in
  match pil_images with
  | [] => Raised
  | first :: _ =>
      Returned (first :: (if decide (1 < length pil_images)%nat
                          then tail pil_images else []))
  end.

(** The [try] body of [main] without [--debug] (lines 426-432). *)
Definition clean_document (d : document pixmap) : outcome (list image) :=
  match extract_pdf_to_images d with
  | Returned image_arrays =>
      rebuild_pdf_from_images (process_images_in_folder image_arrays)
  | Raised => Raised
  | SystemExit code => SystemExit code
  end.

(** The loop of [main] over the PDF files (lines 405-449), on the
    content of the output directory: an exception skips the document, a
    [SystemExit] ends the program with its code. *)
Fixpoint main_loop (pdf_files : list (document pixmap))
    (output : gmap string (list image)) : Z * gmap string (list image) :=
  match pdf_files with
  | [] => (0, output)
  | d :: rest =>
      match clean_document d with
      | Returned pdf => main_loop rest (<[pdf_name d := pdf]> output)
      | Raised => main_loop rest output
      | SystemExit code => (code, output)
      end
  end.

(** [main] without [--debug]: the exit code and the output directory. *)
Definition main (pdf_files : list (document pixmap))
    (output : gmap string (list image)) : Z * gmap string (list image) :=
  match pdf_files with
  | [] => (1, output)
  | _ => main_loop pdf_files output
  end.

End Steps.

(** The pages of a cleaned document: each page extracted, cleaned, and
    turned to RGB, in the order of the document. *)
Definition cleaned_pages {pixmap : Type} (imdecode pil_frombytes : pixmap -> option image)
    (chroma : Z -> Z -> Z -> pixel) (dpi : nat)
    (pages : list (option (page_render pixmap))) : list image :=
  (fun p => cvt_swap (remove_watermark_from_image chroma
                        (extract_page imdecode pil_frombytes dpi p)))
  <$> pages.

(** A document [fitz.open] accepts. *)
Definition opens {pixmap : Type} (d : document pixmap) : Prop :=
  is_Some (pdf_pages d).

(** Documents for the examples: the renderer's pixmap is the decoded
    array itself, and the PIL path is not needed. *)
Definition decode_ok (pix : image) : option image := Some pix.

Definition pil_unused (pix : image) : option image := None.

Definition rendered (img : image) : option (page_render image) :=
  Some {| with_matrix := Some img; without_annots := None;
          with_defaults := None |}.

Definition doc_two_pages : document image :=
  {| pdf_name := "a.pdf"; pdf_pages := Some [rendered sample_image; None] |}.

Definition doc_unreadable : document image :=
  {| pdf_name := "b.pdf"; pdf_pages := None |}.

Definition doc_no_pages : document image :=
  {| pdf_name := "c.pdf"; pdf_pages := Some [] |}.

Definition doc_white : document image :=
  {| pdf_name := "d.pdf"; pdf_pages := Some [rendered white_1x1] |}.

(** ** The rest of the file: the steps with --debug *)

(** [str(n)] *)
Definition decimal (n : nat) : string :=
  NilZero.string_of_uint (N.to_uint (N.of_nat n)).

(** A string padded on the left with zeros to a width. *)
Definition zfill (width : nat) (s : string) : string :=
  String.app
    (string_of_list_ascii (replicate (width - String.length s) "0"%char)) s.

(** The file name of line 89 for a 1-based page number, the number in
    format [03d]. *)
Definition page_name (n : nat) : string :=
  String.app "page_" (String.app (zfill 3 (decimal n)) ".png").

(** The names [glob] finds for the pattern of lines 268 and 313: a name
    that starts with [page_] and ends with [.png], the two apart. *)
Definition is_page_file (name : string) : bool :=
  String.prefix "page_" name
  && (9 <=? String.length name)%nat
  && String.eqb (substring (String.length name - 4) 4 name) ".png".

(** The order of Python on strings, strict. *)
Definition str_lt (a b : string) : Prop := String.compare a b = Lt.

#[local] Instance str_lt_dec a b : Decision (str_lt a b).
Proof. unfold str_lt. solve_decision. Defined.

(** Files of a folder by name. *)
Definition name_le (e1 e2 : string * image) : Prop := String.le e1.1 e2.1.

#[local] Instance name_le_dec e1 e2 : Decision (name_le e1 e2).
Proof. unfold name_le. apply _. Defined.

(** [sorted(path.glob(...))] with the image each file holds. *)
Definition page_listing (dir : gmap string image) : list (string * image) :=
  merge_sort name_le
    (filter (fun e : string * image => is_page_file e.1 = true)
            (map_to_list dir)).

(** The two folders of intermediate files and the output directory. *)
Record workspace : Type := {
  images_extracted : gmap string image;
  images_cleaned : gmap string image;
  output_dir : gmap string (list image)
}.

Section DebugSteps.

Context {pixmap : Type}.
Variable imdecode : pixmap -> option image.
Variable pil_frombytes : pixmap -> option image.
Variable chroma : Z -> Z -> Z -> pixel.

(** [extract_pdf_to_images(pdf, folder, debug=True)], the folder it
    leaves: removed and made anew, then one file per page that decodes,
    under its 1-based number; a page that fails writes no file. *)
Definition write_page_files (pages : list (option (page_render pixmap)))
    : gmap string image :=
  fold_left
    (fun dir (e : nat * option (page_render pixmap)) =>
       match decode_page imdecode pil_frombytes e.2 with
       | Some img_array => <[page_name (e.1 + 1) := img_array]> dir
       | None => dir
       end)
    (enumerate pages) ∅.

Definition extract_pdf_to_images_debug (d : document pixmap)
    : outcome (gmap string image) :=
  match pdf_pages d with
  | None => SystemExit 1
  | Some pages => Returned (write_page_files pages)
  end.

(** [process_images_in_folder(input, output, debug=True)] on the output
    folder: every page file of the input folder is read, cleaned and
    written under the same name; the output folder is not emptied. *)
Definition process_images_in_folder_debug
    (input_dir output_dir : gmap string image) : gmap string image :=
  fold_left
    (fun out (e : string * image) =>
       <[e.1 := remove_watermark_from_image chroma e.2]> out)
    (page_listing input_dir) output_dir.

(** [rebuild_pdf_from_images(folder, pdf, debug=True)]: the pages
    written, or [None] when the folder has no page file and the
    function returns [False]. PIL opens a file in RGB. *)
Definition rebuild_pdf_from_images_debug (dir : gmap string image)
    : option (list image) :=
  let pil_images :=
    (fun e : string * image => cvt_swap e.2) <$> page_listing dir in
  match pil_images with
  | [] => None
  | first :: _ =>
      Some (first :: (if decide (1 < length pil_images)%nat
                      then tail pil_images else []))
  end.

(** The [try] body of [main] with [--debug] (lines 413-422). *)
Definition debug_document (d : document pixmap) (w : workspace)
    : outcome workspace :=
  match extract_pdf_to_images_debug d with
  | Returned extracted =>
      let cleaned :=
        process_images_in_folder_debug extracted (images_cleaned w) in
      Returned
        {| images_extracted := extracted;
           images_cleaned := cleaned;
           output_dir :=
             match rebuild_pdf_from_images_debug cleaned with
             | Some pdf => <[pdf_name d := pdf]> (output_dir w)
             | None => output_dir w
             end |}
  | Raised => Raised
  | SystemExit code => SystemExit code
  end.

(** The loop of [main] with [--debug]. *)
Fixpoint main_loop_debug (pdf_files : list (document pixmap)) (w : workspace)
    : Z * workspace :=
  match pdf_files with
  | [] => (0, w)
  | d :: rest =>
      match debug_document d w with
      | Returned w' => main_loop_debug rest w'
      | Raised => main_loop_debug rest w
      | SystemExit code => (code, w)
      end
  end.

End DebugSteps.

(** A folder whose page files all carry a page number from 1 to 999. *)
Definition well_named (dir : gmap string image) : Prop :=
  forall name, is_Some (dir !! name) -> is_page_file name = true ->
               exists k, (1 <= k <= 999)%nat /\ name = page_name k.

(** The three digits of a number below 1000. *)
Definition digits3 (n : nat) : string :=
  string_of_list_ascii
    [ascii_of_nat (48 + n / 100); ascii_of_nat (48 + (n / 10) mod 10);
     ascii_of_nat (48 + n mod 10)].

(** The files a folder holds under given page numbers, by number. *)
Definition numbered_files (dir : gmap string image) (ks : list nat)
    : list (string * image) :=
  omap (fun k => (fun img => (page_name k, img)) <$> dir !! page_name k) ks.

(** A folder without page files, as [images_cleaned] is before the
    first run. *)
Definition no_page_files (dir : gmap string image) : Prop :=
  forall name, is_page_file name = true -> dir !! name = None.

(** A page whose rendering and decoding raise nothing. *)
Definition decodes {pixmap : Type} (imdecode pil_frombytes : pixmap -> option image)
    (p : option (page_render pixmap)) : Prop :=
  is_Some (decode_page imdecode pil_frombytes p).

(** What the file of page k of the cleaned folder holds after a
    document: the cleaned page k of the document when it decodes, and
    what the folder held before when it does not. *)
Definition cleaned_file {pixmap : Type} (imdecode pil_frombytes : pixmap -> option image)
    (chroma : Z -> Z -> Z -> pixel)
    (pages : list (option (page_render pixmap)))
    (before : gmap string image) (k : nat) : option image :=
  match pages !! (k - 1)%nat ≫= decode_page imdecode pil_frombytes with
  | Some img => Some (remove_watermark_from_image chroma img)
  | None => before !! page_name k
  end.

Definition empty_workspace : workspace :=
  {| images_extracted := ∅; images_cleaned := ∅; output_dir := ∅ |}.

Definition doc_long : document image :=
  {| pdf_name := "e.pdf";
     pdf_pages := Some [rendered white_1x1; rendered sample_image] |}.

(** * Properties *)

(** ** The detector *)

Lemma length_calcHist img : length (calcHist img) = 512%nat.
Proof. unfold calcHist. by rewrite length_fmap, length_seq. Qed.

Lemma lookup_calcHist img idx c :
  calcHist img !! idx = Some c -> c = freq img idx /\ (idx < 512)%nat.
Proof.
  unfold calcHist. rewrite list_lookup_fmap.
  destruct (seq 0 512 !! idx) as [j|] eqn:Hj; [|done].
  apply lookup_seq in Hj as [-> ?]. intros [= <-]. done.
Qed.

#[local] Instance key_le_trans : Transitive key_le.
Proof. intros a b c. unfold key_le. lia. Qed.

#[local] Instance key_le_total : Total key_le.
Proof. intros a b. unfold key_le. lia. Qed.

Lemma argsort_Permutation hist : argsort hist ≡ₚ seq 0 (length hist).
Proof.
  unfold argsort. rewrite merge_sort_Permutation.
  rewrite snd_zip; [done|]. by rewrite length_seq.
Qed.

Lemma sorted_indices_Permutation img : sorted_indices img ≡ₚ seq 0 512.
Proof.
  unfold sorted_indices.
  by rewrite reverse_Permutation, argsort_Permutation, length_calcHist.
Qed.

Lemma sorted_indices_lt img idx : idx ∈ sorted_indices img -> (idx < 512)%nat.
Proof. rewrite sorted_indices_Permutation, elem_of_seq. lia. Qed.

Lemma StronglySorted_weaken {A} (R R' : relation A) l :
  (forall a b, a ∈ l -> b ∈ l -> R a b -> R' a b) ->
  StronglySorted R l -> StronglySorted R' l.
Proof.
  intros HR Hl. induction Hl as [|x l Hl IH Hx]; constructor.
  - apply IH. intros a b Ha Hb. apply HR; by right.
  - rewrite Forall_forall in Hx |- *. intros b Hb.
    apply HR; [by left|by right|by apply Hx].
Qed.

Lemma StronglySorted_lookup {A} (R : relation A) l i j a b :
  StronglySorted R l -> (i < j)%nat ->
  l !! i = Some a -> l !! j = Some b -> R a b.
Proof.
  intros Hl. revert i j. induction Hl as [|x l Hl IH Hx]; intros i j Hij Ha Hb.
  { by rewrite lookup_nil in Ha. }
  destruct j as [|j]; [lia|]. destruct i as [|i]; simpl in *.
  - injection Ha as <-. rewrite Forall_forall in Hx.
    apply Hx. by eapply list_elem_of_lookup_2.
  - apply (IH i j); [lia|done|done].
Qed.

Lemma Forall_concat {A} (P : A -> Prop) (g : grid A) :
  Forall (Forall P) g -> Forall P (concat g).
Proof.
  induction 1 as [|row g Hrow _ IH]; simpl; [constructor|].
  by apply Forall_app.
Qed.

(** The scan stops at the first bin that passes both filters. *)
Lemma scan_bins_first indices :
  scan_bins indices
  = bin_center <$> head (filter (fun idx => passes_filters idx = true) indices).
Proof.
  induction indices as [|idx rest IH]; [done|].
  rewrite filter_cons. cbn [scan_bins].
  destruct (decide (passes_filters idx = true)) as [Hp|Hp].
  - unfold passes_filters in Hp.
    apply andb_true_iff in Hp as [H1%negb_true_iff H2%negb_true_iff].
    by rewrite H1, H2.
  - unfold passes_filters in Hp.
    destruct (channel_sum (bin_center idx) <? 150); [done|].
    destruct (color_diff3 (bin_center idx) <? 20); [done|].
    by destruct Hp.
Qed.

Lemma unravel_index_bounds idx :
  (idx < 512)%nat ->
  let '(c0, c1, c2) := unravel_index idx in
  0 <= c0 <= 7 /\ 0 <= c1 <= 7 /\ 0 <= c2 <= 7.
Proof.
  intros Hidx. unfold unravel_index.
  pose proof (Z.mod_pos_bound (Z.of_nat idx / 8) 8).
  pose proof (Z.mod_pos_bound (Z.of_nat idx) 8).
  assert (0 <= Z.of_nat idx / 64 <= 7).
  { split; [apply Z.div_pos; lia|].
    apply Z.lt_succ_r, Z.div_lt_upper_bound; lia. }
  lia.
Qed.

(** A scan over all the bins always meets one that passes: the
    fallback of line 162 is out of its reach. *)
Lemma scan_bins_all_bins indices :
  indices ≡ₚ seq 0 512 ->
  exists idx, head (filter (fun i => passes_filters i = true) indices) = Some idx
              /\ idx ∈ indices /\ passes_filters idx = true.
Proof.
  intros Hperm.
  destruct (head (filter (fun i => passes_filters i = true) indices))
    as [idx|] eqn:Hhead.
  - exists idx. apply head_Some_elem_of, list_elem_of_filter in Hhead. tauto.
  - apply head_None in Hhead.
    assert (7%nat ∈ filter (fun i => passes_filters i = true) indices) as Hin.
    { apply list_elem_of_filter. split; [done|].
      rewrite Hperm. apply elem_of_seq. lia. }
    rewrite Hhead in Hin. by apply not_elem_of_nil in Hin.
Qed.

Lemma passes_filters_thresholds idx :
  passes_filters idx
  = (150 <=? channel_sum (bin_center idx))
    && (20 <=? color_diff3 (bin_center idx)).
Proof.
  unfold passes_filters.
  destruct (Z.ltb_spec (channel_sum (bin_center idx)) 150),
           (Z.leb_spec 150 (channel_sum (bin_center idx))); try lia;
  destruct (Z.ltb_spec (color_diff3 (bin_center idx)) 20),
           (Z.leb_spec 20 (color_diff3 (bin_center idx))); try lia; done.
Qed.

Lemma watermark_color_of_first indices :
  watermark_color_of indices
  = match head (filter (fun idx => passes_filters idx = true) indices) with
    | Some idx => bin_center idx
    | None => fallback_color
    end.
Proof.
  unfold watermark_color_of. rewrite scan_bins_first.
  by destruct (head _).
Qed.

(** The bucket a pixel is counted in, read back through
    [np.unravel_index]: axis k of the histogram is channel k of the
    image. *)
Lemma flat_bin_unravel (p : pixel) idx :
  is_pixel p -> (idx < 512)%nat ->
  flat_bin p = idx <-> (p.1.1 / 32, p.1.2 / 32, p.2 / 32) = unravel_index idx.
Proof.
  destruct p as [[p0 p1] p2]. unfold is_pixel, is_u8, flat_bin, unravel_index.
  intros (H0 & H1 & H2) Hidx. cbn [fst snd].
  assert (Hb : forall v, 0 <= v <= 255 -> 0 <= v / 32 <= 7).
  { intros v Hv. split; [apply Z.div_pos; lia|].
    apply Z.lt_succ_r, Z.div_lt_upper_bound; lia. }
  pose proof (Hb _ H0). pose proof (Hb _ H1). pose proof (Hb _ H2).
  set (a := p0 / 32) in *. set (b := p1 / 32) in *. set (c := p2 / 32) in *.
  clearbody a b c.
  pose proof (Z.div_mod (Z.of_nat idx) 8 ltac:(lia)) as E1.
  pose proof (Z.div_mod (Z.of_nat idx / 8) 8 ltac:(lia)) as E2.
  rewrite Z.div_div in E2 by lia. change (8 * 8) with 64 in E2.
  pose proof (Z.mod_pos_bound (Z.of_nat idx) 8 ltac:(lia)).
  pose proof (Z.mod_pos_bound (Z.of_nat idx / 8) 8 ltac:(lia)).
  split.
  - intros <-. rewrite Z2Nat.id in * by lia.
    assert ((a * 64 + b * 8 + c) / 64 = a) as Ea
      by (symmetry; apply (Z.div_unique _ 64 a (b * 8 + c)); lia).
    assert ((a * 64 + b * 8 + c) / 8 = a * 8 + b) as Eb
      by (symmetry; apply (Z.div_unique _ 8 (a * 8 + b) c); lia).
    assert ((a * 64 + b * 8 + c) mod 8 = c) as Ec
      by (symmetry; apply (Z.mod_unique _ 8 (a * 8 + b) c); lia).
    rewrite Ea, Eb, Ec.
    assert ((a * 8 + b) mod 8 = b) as ->
      by (symmetry; apply (Z.mod_unique _ 8 a b); lia).
    done.
  - intros [= -> -> ->]. apply Nat2Z.inj. rewrite Z2Nat.id by lia. lia.
Qed.

Lemma wrap16_small z : -32768 <= z < 32768 -> wrap16 z = z.
Proof. intros Hz. unfold wrap16. rewrite Z.mod_small; lia. Qed.







Section DetectorFacts.

Context {K : Type}.
Variable le : relation K.
Variable normalize : list Z -> list K.
Variable np_argsort : list K -> list nat.
Hypothesis normalize_length : keeps_length normalize.
Hypothesis argsort_sorts : sorts_ascending le np_argsort.

Lemma length_hist_with img : length (hist_with normalize img) = 512%nat.
Proof. unfold hist_with. by rewrite normalize_length, length_calcHist. Qed.

Lemma sorted_indices_with_Permutation img :
  sorted_indices_with normalize np_argsort img ≡ₚ seq 0 512.
Proof.
  unfold sorted_indices_with. rewrite reverse_Permutation.
  rewrite (proj1 (argsort_sorts _)). by rewrite length_hist_with.
Qed.


End DetectorFacts.



(** C10: the colour the range mask is centred on is the detected bin's
    centre with its channels reversed. With (c0, c1, c2) the bucket of
    the selected bin along the image's channels 0, 1, 2, the bounds of
    every band are taken around (c2*32+16, c1*32+16, c0*32+16) in image
    channel order, which differs from the bin's own centre whenever
    c0 and c2 differ; the two filters give the same verdict on a colour
    and on its reversal. *)
Theorem mask_target_is_reversed_bin_center img :
  exists idx c0 c1 c2,
    head (filter (fun i => passes_filters i = true) (sorted_indices img))
    = Some idx
    /\ unravel_index idx = (c0, c1, c2)
    /\ (forall p : pixel, is_pixel p ->
          flat_bin p = idx <-> (p.1.1 / 32, p.1.2 / 32, p.2 / 32) = (c0, c1, c2))
    /\ watermark_color_rgb img = (c0 * 32 + 16, c1 * 32 + 16, c2 * 32 + 16)
    /\ target_bgr (watermark_color_rgb img)
       = (c2 * 32 + 16, c1 * 32 + 16, c0 * 32 + 16)
    /\ tolerance_mask img (watermark_color_rgb img)
       = accumulate img (c2 * 32 + 16, c1 * 32 + 16, c0 * 32 + 16) [1; 2; 3]
           (inRange img
              (lower_bgr (c2 * 32 + 16, c1 * 32 + 16, c0 * 32 + 16) 1)
              (upper_bgr (c2 * 32 + 16, c1 * 32 + 16, c0 * 32 + 16) 1))
    /\ (c0 <> c2 ->
        target_bgr (watermark_color_rgb img)
        <> (c0 * 32 + 16, c1 * 32 + 16, c2 * 32 + 16))
    /\ (forall r g b,
          channel_sum (r, g, b) = channel_sum (b, g, r)
          /\ color_diff3 (r, g, b) = color_diff3 (b, g, r)).
Proof.
  destruct (scan_bins_all_bins (sorted_indices img)
              (sorted_indices_Permutation img)) as (idx & Hhead & Hin & Hpass).
  apply sorted_indices_lt in Hin.
  destruct (unravel_index idx) as [[c0 c1] c2] eqn:Hu.
  pose proof (unravel_index_bounds idx Hin) as Hb. rewrite Hu in Hb.
  assert (Hcol : watermark_color_rgb img
                 = (c0 * 32 + 16, c1 * 32 + 16, c2 * 32 + 16)).
  { unfold watermark_color_rgb. rewrite watermark_color_of_first, Hhead.
    unfold bin_center. by rewrite Hu. }
  assert (Htgt : target_bgr (watermark_color_rgb img)
                 = (c2 * 32 + 16, c1 * 32 + 16, c0 * 32 + 16)).
  { rewrite Hcol. unfold target_bgr. by rewrite !wrap16_small by lia. }
  exists idx, c0, c1, c2. split_and!.
  - exact Hhead.
  - exact Hu.
  - intros p Hp. rewrite <- Hu. by apply flat_bin_unravel.
  - exact Hcol.
  - exact Htgt.
  - unfold tolerance_mask, tolerance_mask_upto. rewrite Htgt. reflexivity.
  - intros Hne. rewrite Htgt. intros [= ? ?]. lia.
  - intros r g b. unfold channel_sum, color_diff3, max3, min3. lia.
Qed.

(** ** Arrays *)

Lemma at2_grid_map {A B} (f : A -> B) (g : grid A) y x :
  at2 (grid_map f g) y x = f <$> at2 g y x.
Proof.
  unfold at2, grid_map. rewrite list_lookup_fmap.
  destruct (g !! y) as [row|]; [|done]. simpl. apply list_lookup_fmap.
Qed.

Lemma at2_grid_zip_with {A B C} (f : A -> B -> C) (g : grid A) (k : grid B) y x :
  at2 (grid_zip_with f g k) y x
  = (a ← at2 g y x; b ← at2 k y x; Some (f a b)).
Proof.
  unfold at2, grid_zip_with. rewrite lookup_zip_with.
  destruct (g !! y) as [rg|]; [|done]. simpl.
  destruct (k !! y) as [rk|]; simpl.
  - apply lookup_zip_with.
  - by destruct (rg !! x).
Qed.

Lemma grid_zip_with_map {A B C D} (f : B -> C -> D) (g : A -> B) (h : A -> C)
    (a : grid A) :
  grid_zip_with f (grid_map g a) (grid_map h a)
  = grid_map (fun x => f (g x) (h x)) a.
Proof.
  unfold grid_zip_with, grid_map.
  rewrite zip_with_fmap_l, zip_with_fmap_r, zip_with_diag.
  apply list_fmap_ext. intros _ row _.
  by rewrite zip_with_fmap_l, zip_with_fmap_r, zip_with_diag.
Qed.

Lemma shape_grid_map {A B} (f : A -> B) (g : grid A) :
  shape (grid_map f g) = shape g.
Proof.
  unfold shape, grid_map. rewrite <- list_fmap_compose.
  apply list_fmap_ext. intros _ row _. apply length_fmap.
Qed.

Lemma shape_grid_zip_with {A B C} (f : A -> B -> C) (g : grid A) (k : grid B) :
  shape g = shape k -> shape (grid_zip_with f g k) = shape g.
Proof.
  unfold shape, grid_zip_with. revert k.
  induction g as [|rg g IH]; intros [|rk k]; simpl; try done.
  intros [= Hr Hs]. f_equal; [|by apply IH].
  rewrite length_zip_with. lia.
Qed.

Lemma shape_at2_is_Some {A B} (g : grid A) (k : grid B) y x :
  shape g = shape k -> is_Some (at2 g y x) -> is_Some (at2 k y x).
Proof.
  unfold shape, at2. intros Hs.
  assert (Hy : (length <$> g) !! y = (length <$> k) !! y) by by rewrite Hs.
  rewrite !list_lookup_fmap in Hy.
  destruct (g !! y) as [rg|], (k !! y) as [rk|]; simpl in *;
    try done; try by intros [??].
  injection Hy as Hlen. rewrite !lookup_lt_is_Some. lia.
Qed.

(** Two arrays of one shape with the same cells are the same array. *)
Lemma grid_eq {A} (g k : grid A) :
  shape g = shape k -> (forall y x, at2 g y x = at2 k y x) -> g = k.
Proof.
  intros Hs Hat. apply list_eq. intros y.
  assert (Hy : (length <$> g) !! y = (length <$> k) !! y)
    by (by unfold shape in Hs; rewrite Hs).
  rewrite !list_lookup_fmap in Hy. specialize (Hat y). unfold at2 in Hat.
  destruct (g !! y) as [rg|], (k !! y) as [rk|]; simpl in *; try done.
  f_equal. by apply list_eq.
Qed.

(** ** The tolerance mask *)

Lemma accumulate_pointwise img target multipliers (f : pixel -> Z) :
  accumulate img target multipliers (grid_map f img)
  = grid_map (fun p => acc_px target multipliers (f p) p) img.
Proof.
  unfold accumulate, acc_px. revert f.
  induction multipliers as [|i l IH]; intros f; [done|].
  cbn [fold_left]. unfold mask_add, band_mask, inRange.
  rewrite grid_zip_with_map. apply IH.
Qed.

Lemma tolerance_mask_upto_pointwise n img rgb :
  tolerance_mask_upto n img rgb
  = grid_map (fun p => acc_px (target_bgr rgb) (Z.of_nat <$> seq 1 n)
                              (band_px (target_bgr rgb) 1 p) p) img.
Proof.
  unfold tolerance_mask_upto, band_mask, inRange.
  apply (accumulate_pointwise img _ _ (band_px (target_bgr rgb) 1)).
Qed.

Lemma selected_grid_map {A} (f : A -> Z) (g : grid A) y x :
  selected (grid_map f g) y x <-> exists a, at2 g y x = Some a /\ 0 < f a.
Proof.
  unfold selected. rewrite at2_grid_map.
  destruct (at2 g y x) as [a|]; simpl.
  - split; [intros (v & [= <-] & ?)|intros (a' & [= <-] & ?)]; eauto.
  - split; [intros (v & ? & _)|intros (a' & ? & _)]; done.
Qed.

(** The bounds of a band around an 8-bit target: no 16-bit
    wrap-around, and the cast to uint8 keeps the clipped value. *)
Lemma lower_channel c i :
  is_u8 c -> 0 <= i <= 400 ->
  astype_uint8 (np_clip (wrap16 (c - tol * i)) 0 255) = Z.max 0 (c - 80 * i).
Proof.
  unfold is_u8, astype_uint8, np_clip, tol. intros Hc Hi.
  rewrite wrap16_small by lia. rewrite Z.mod_small; lia.
Qed.

Lemma upper_channel c i :
  is_u8 c -> 0 <= i <= 400 ->
  astype_uint8 (np_clip (wrap16 (c + tol * i)) 0 255) = Z.min 255 (c + 80 * i).
Proof.
  unfold is_u8, astype_uint8, np_clip, tol. intros Hc Hi.
  rewrite wrap16_small by lia. rewrite Z.mod_small; lia.
Qed.

Lemma clamp_mono a b : a <= b -> clamp a <= clamp b.
Proof. unfold clamp. lia. Qed.

Lemma target_bgr_u8 r g b :
  is_pixel (r, g, b) ->
  target_bgr (r, g, b) = (b, g, r) /\ is_pixel (b, g, r).
Proof.
  unfold is_pixel, is_u8, target_bgr. intros (? & ? & ?).
  rewrite !wrap16_small by lia. done.
Qed.

Lemma in_range_in_band target i p :
  is_pixel target -> 0 <= i <= 400 ->
  in_range p (lower_bgr target i) (upper_bgr target i) = in_band target i p.
Proof.
  destruct target as [[t0 t1] t2], p as [[p0 p1] p2].
  unfold is_pixel. intros (H0 & H1 & H2) Hi.
  unfold in_range, in_band, lower_bgr, upper_bgr, map3.
  rewrite !lower_channel, !upper_channel by done.
  assert (Hlo : forall c, is_u8 c -> clamp (c - tol * i) = Z.max 0 (c - 80 * i))
    by (unfold is_u8, clamp, tol; lia).
  assert (Hhi : forall c, is_u8 c -> clamp (c + tol * i) = Z.min 255 (c + 80 * i))
    by (unfold is_u8, clamp, tol; lia).
  by rewrite !Hlo, !Hhi by done.
Qed.

Lemma in_band_true target i p :
  in_band target i p = true <->
  let '(t0, t1, t2) := target in
  let '(p0, p1, p2) := p in
  clamp (t0 - tol * i) <= p0 <= clamp (t0 + tol * i)
  /\ clamp (t1 - tol * i) <= p1 <= clamp (t1 + tol * i)
  /\ clamp (t2 - tol * i) <= p2 <= clamp (t2 + tol * i).
Proof.
  destruct target as [[t0 t1] t2], p as [[p0 p1] p2]. unfold in_band.
  rewrite !andb_true_iff, !Z.leb_le. tauto.
Qed.

(** A wider multiplier accepts everything a narrower one does. *)
Lemma in_band_widen target i j p :
  0 <= i <= j -> in_band target i p = true -> in_band target j p = true.
Proof.
  intros Hij. rewrite !in_band_true.
  destruct target as [[t0 t1] t2], p as [[p0 p1] p2].
  assert (Hch : forall t q, clamp (t - tol * i) <= q <= clamp (t + tol * i) ->
                            clamp (t - tol * j) <= q <= clamp (t + tol * j)).
  { intros t q [Hlo Hhi].
    assert (clamp (t - tol * j) <= clamp (t - tol * i))
      by (unfold tol; apply clamp_mono; lia).
    assert (clamp (t + tol * i) <= clamp (t + tol * j))
      by (unfold tol; apply clamp_mono; lia).
    lia. }
  intros (H0 & H1 & H2). auto.
Qed.

Lemma band_px_in_band target i p :
  is_pixel target -> 0 <= i <= 400 ->
  band_px target i p = if in_band target i p then 255 else 0.
Proof. intros Ht Hi. unfold band_px. by rewrite in_range_in_band. Qed.

(** The accumulated cell after the bands 1..n, by the bands the pixel
    lies in: 255 times their number (band 1 counted twice), modulo
    256. *)
Lemma acc_px_cases target p :
  is_pixel target ->
  acc_px target [1] (band_px target 1 p) p
  = (if in_band target 1 p then 254 else 0)
  /\ acc_px target [1; 2] (band_px target 1 p) p
     = (if in_band target 1 p then 253
        else if in_band target 2 p then 255 else 0)
  /\ acc_px target [1; 2; 3] (band_px target 1 p) p
     = (if in_band target 1 p then 252
        else if in_band target 2 p then 254
        else if in_band target 3 p then 255 else 0).
Proof.
  intros Ht. unfold acc_px. cbn [fold_left].
  rewrite !band_px_in_band by (done || lia).
  pose proof (in_band_widen target 1 2 p ltac:(lia)) as H12.
  pose proof (in_band_widen target 2 3 p ltac:(lia)) as H23.
  destruct (in_band target 1 p); [rewrite H12, H23 by (done || auto); done|].
  destruct (in_band target 2 p); [rewrite H23 by done; done|].
  by destruct (in_band target 3 p).
Qed.

Lemma grid_map_ext {A B} (f g : A -> B) (a : grid A) :
  (forall x, f x = g x) -> grid_map f a = grid_map g a.
Proof.
  intros Hfg. unfold grid_map. apply list_fmap_ext. intros _ row _.
  apply list_fmap_ext. auto.
Qed.

Lemma grid_map_compose {A B C} (f : A -> B) (g : B -> C) (a : grid A) :
  grid_map g (grid_map f a) = grid_map (fun x => g (f x)) a.
Proof.
  unfold grid_map. rewrite <- list_fmap_compose.
  apply list_fmap_ext. intros _ row _. simpl. by rewrite <- list_fmap_compose.
Qed.

(** C8: the mask accumulated by wrapping 8-bit additions of the 0/255
    band masks is set exactly where the logical union of the three
    tolerance bands is: a cell is nonzero if and only if its pixel lies
    in at least one band. *)
Theorem accumulated_mask_is_union_of_bands img rgb :
  is_pixel rgb ->
  truthiness (tolerance_mask img rgb) = union_of_bands img (target_bgr rgb)
  /\ (forall y x v,
        at2 (tolerance_mask img rgb) y x = Some v ->
        v <> 0 <->
        exists p, at2 img y x = Some p
                  /\ (in_band (target_bgr rgb) 1 p = true
                      \/ in_band (target_bgr rgb) 2 p = true
                      \/ in_band (target_bgr rgb) 3 p = true)).
Proof.
  intros Hrgb. destruct rgb as [[r g] b].
  destruct (target_bgr_u8 r g b Hrgb) as [Ht Hpx].
  unfold tolerance_mask. rewrite tolerance_mask_upto_pointwise.
  change (Z.of_nat <$> seq 1 3) with [1; 2; 3]. rewrite Ht. split.
  - unfold truthiness, union_of_bands. rewrite grid_map_compose.
    apply grid_map_ext. intros p.
    destruct (acc_px_cases (b, g, r) p Hpx) as (_ & _ & ->).
    by destruct (in_band (b, g, r) 1 p), (in_band (b, g, r) 2 p),
      (in_band (b, g, r) 3 p).
  - intros y x v. rewrite at2_grid_map.
    destruct (at2 img y x) as [p|]; [|done]. intros Hv.
    assert (v = acc_px (b, g, r) [1; 2; 3] (band_px (b, g, r) 1 p) p) as ->
      by (by injection Hv).
    destruct (acc_px_cases (b, g, r) p Hpx) as (_ & _ & ->).
    assert ((exists p0, Some p = Some p0
                        /\ (in_band (b, g, r) 1 p0 = true
                            \/ in_band (b, g, r) 2 p0 = true
                            \/ in_band (b, g, r) 3 p0 = true))
            <-> in_band (b, g, r) 1 p || in_band (b, g, r) 2 p
                || in_band (b, g, r) 3 p = true) as ->.
    { rewrite !orb_true_iff. split.
      - intros (p0 & [= <-] & H). tauto.
      - intros H. exists p. tauto. }
    destruct (in_band (b, g, r) 1 p), (in_band (b, g, r) 2 p),
      (in_band (b, g, r) 3 p); simpl; intuition congruence.
Qed.

(** C9: for a fixed target colour the mask of multiplier 1 lies inside
    the mask accumulated over the multipliers {1,2}, which lies inside
    the one accumulated over {1,2,3}; the band of a multiplier lies
    inside the band of the next, and the accumulated masks are the
    unions of their bands. *)
Theorem tolerance_mask_monotone img rgb y x :
  is_pixel rgb ->
  let target := target_bgr rgb in
  (selected (band_mask img target 1) y x
   <-> selected (tolerance_mask_upto 1 img rgb) y x)
  /\ (selected (tolerance_mask_upto 1 img rgb) y x ->
      selected (tolerance_mask_upto 2 img rgb) y x)
  /\ (selected (tolerance_mask_upto 2 img rgb) y x ->
      selected (tolerance_mask_upto 3 img rgb) y x)
  /\ (selected (tolerance_mask_upto 2 img rgb) y x
      <-> selected (band_mask img target 1) y x
          \/ selected (band_mask img target 2) y x)
  /\ (selected (tolerance_mask_upto 3 img rgb) y x
      <-> selected (band_mask img target 1) y x
          \/ selected (band_mask img target 2) y x
          \/ selected (band_mask img target 3) y x)
  /\ (selected (band_mask img target 1) y x ->
      selected (band_mask img target 2) y x)
  /\ (selected (band_mask img target 2) y x ->
      selected (band_mask img target 3) y x).
Proof.
  intros Hrgb target. destruct rgb as [[r g] b].
  destruct (target_bgr_u8 r g b Hrgb) as [Ht Hpx].
  assert (Hband : forall i, 0 <= i <= 400 ->
            selected (band_mask img target i) y x
            <-> exists p, at2 img y x = Some p /\ in_band target i p = true).
  { intros i Hi. unfold band_mask, inRange. rewrite selected_grid_map.
    unfold target. rewrite Ht.
    split; intros (p & Hp & Hin); exists p; (split; [done|]);
      rewrite in_range_in_band in * by done;
      by destruct (in_band (b, g, r) i p). }
  assert (Hupto : forall n v,
            (forall p, acc_px target (Z.of_nat <$> seq 1 n)
                         (band_px target 1 p) p = v p) ->
            selected (tolerance_mask_upto n img (r, g, b)) y x
            <-> exists p, at2 img y x = Some p /\ 0 < v p).
  { intros n v Hv. rewrite tolerance_mask_upto_pointwise, selected_grid_map.
    fold target. split; intros (p & Hp & Hin); exists p; by rewrite Hv in *. }
  rewrite !Hband by lia.
  rewrite (Hupto 1%nat (fun p => if in_band target 1 p then 254 else 0)),
    (Hupto 2%nat (fun p => if in_band target 1 p then 253
                           else if in_band target 2 p then 255 else 0)),
    (Hupto 3%nat (fun p => if in_band target 1 p then 252
                           else if in_band target 2 p then 254
                           else if in_band target 3 p then 255 else 0));
    try (intros p; unfold target; rewrite Ht;
         apply (acc_px_cases (b, g, r) p Hpx)).
  assert (H12 : forall p, in_band target 1 p = true -> in_band target 2 p = true)
    by (intros p; apply in_band_widen; lia).
  assert (H23 : forall p, in_band target 2 p = true -> in_band target 3 p = true)
    by (intros p; apply in_band_widen; lia).
  split_and!.
  - split; intros (p & Hp & Hin); exists p; (split; [done|]);
      by destruct (in_band target 1 p).
  - intros (p & Hp & Hin); exists p; (split; [done|]);
      by destruct (in_band target 1 p).
  - intros (p & Hp & Hin); exists p; (split; [done|]).
    destruct (in_band target 1 p); [done|].
    by destruct (in_band target 2 p).
  - split.
    + intros (p & Hp & Hin).
      destruct (in_band target 1 p) eqn:E1; [left; eauto|].
      destruct (in_band target 2 p) eqn:E2; [right; eauto|lia].
    + intros [(p & Hp & Hin)|(p & Hp & Hin)]; exists p; rewrite Hin;
        (split; [done|]); [done|by destruct (in_band target 1 p)].
  - split.
    + intros (p & Hp & Hin).
      destruct (in_band target 1 p) eqn:E1; [left; eauto|].
      destruct (in_band target 2 p) eqn:E2; [right; left; eauto|].
      destruct (in_band target 3 p) eqn:E3; [right; right; eauto|lia].
    + intros [(p & Hp & Hin)|[(p & Hp & Hin)|(p & Hp & Hin)]]; exists p;
        rewrite Hin; (split; [done|]);
        repeat (match goal with |- context [if ?c then _ else _] =>
                  destruct c end); done.
  - intros (p & Hp & Hin). exists p. auto.
  - intros (p & Hp & Hin). exists p. auto.
Qed.

(** ** Morphology *)

Lemma Forall_grid_at2 {A} (P : A -> Prop) (g : grid A) :
  Forall (Forall P) g <-> forall y x v, at2 g y x = Some v -> P v.
Proof.
  unfold at2. rewrite Forall_lookup. split.
  - intros Hg y x v Hv. destruct (g !! y) as [row|] eqn:Hy; [|done].
    specialize (Hg y row Hy). rewrite Forall_lookup in Hg. by apply (Hg x).
  - intros Hg y row Hy. rewrite Forall_lookup. intros x v Hx.
    apply (Hg y x). by rewrite Hy.
Qed.

Lemma foldr_max_elem v l : foldr Z.max v l ∈ v :: l.
Proof.
  induction l as [|a l IH]; simpl; [by left|].
  destruct (Z.max_spec a (foldr Z.max v l)) as [[_ ->]|[_ ->]].
  - apply elem_of_cons in IH as [IH|IH]; [rewrite IH; by left|by do 2 right].
  - right. by left.
Qed.

Lemma foldr_min_elem v l : foldr Z.min v l ∈ v :: l.
Proof.
  induction l as [|a l IH]; simpl; [by left|].
  destruct (Z.min_spec a (foldr Z.min v l)) as [[_ ->]|[_ ->]].
  - right. by left.
  - apply elem_of_cons in IH as [IH|IH]; [rewrite IH; by left|by do 2 right].
Qed.

Lemma window_elem m y x v :
  v ∈ window m y x -> exists y' x', at2 m y' x' = Some v.
Proof.
  unfold window. intros (d & _ & Hd)%list_elem_of_omap.
  unfold at2z in Hd. destruct (_ && _); [eauto|done].
Qed.

(** A cell of a dilated or an eroded mask is one of the cells of the
    mask it was computed from. *)
Lemma morph_step_cells (op : Z -> Z -> Z) m :
  (forall v l, foldr op v l ∈ v :: l) ->
  forall y x v,
    at2 (imap (fun y row =>
                 imap (fun x v => foldr op v (window m y x)) row) m) y x
    = Some v ->
    exists y' x', at2 m y' x' = Some v.
Proof.
  intros Hop y x v. unfold at2 at 1. rewrite list_lookup_imap.
  destruct (m !! y) as [row|] eqn:Hy; [|done]. simpl.
  rewrite list_lookup_imap.
  destruct (row !! x) as [v0|] eqn:Hx; [|done]. simpl. intros [= <-].
  pose proof (Hop v0 (window m y x)) as Hin.
  apply elem_of_cons in Hin as [->|Hin].
  - exists y, x. unfold at2. by rewrite Hy.
  - by apply window_elem in Hin.
Qed.

Lemma dilate1_cells (P : Z -> Prop) m :
  Forall (Forall P) m -> Forall (Forall P) (dilate1 m).
Proof.
  rewrite !Forall_grid_at2. intros Hm y x v Hv. unfold dilate1 in Hv.
  destruct (morph_step_cells Z.max m foldr_max_elem y x v Hv) as (y' & x' & Hv').
  exact (Hm y' x' v Hv').
Qed.

Lemma erode1_cells (P : Z -> Prop) m :
  Forall (Forall P) m -> Forall (Forall P) (erode1 m).
Proof.
  rewrite !Forall_grid_at2. intros Hm y x v Hv. unfold erode1 in Hv.
  destruct (morph_step_cells Z.min m foldr_min_elem y x v Hv) as (y' & x' & Hv').
  exact (Hm y' x' v Hv').
Qed.

Lemma shape_imap2 {A B} (f : nat -> nat -> A -> B) (g : grid A) :
  shape (imap (fun y row => imap (f y) row) g) = shape g.
Proof.
  unfold shape. apply list_eq. intros y.
  rewrite !list_lookup_fmap, list_lookup_imap.
  destruct (g !! y); simpl; [|done]. by rewrite length_imap.
Qed.

Lemma shape_dilate1 m : shape (dilate1 m) = shape m.
Proof. apply shape_imap2. Qed.

Lemma shape_erode1 m : shape (erode1 m) = shape m.
Proof. apply shape_imap2. Qed.

Lemma dilate_cells (P : Z -> Prop) m n :
  Forall (Forall P) m -> Forall (Forall P) (dilate m n).
Proof.
  intros Hm. unfold dilate. induction n as [|n IH]; [done|].
  simpl. by apply dilate1_cells.
Qed.

Lemma shape_dilate m n : shape (dilate m n) = shape m.
Proof.
  unfold dilate. induction n as [|n IH]; [done|].
  simpl. by rewrite shape_dilate1.
Qed.

Lemma shape_tolerance_mask_upto n img rgb :
  shape (tolerance_mask_upto n img rgb) = shape img.
Proof. rewrite tolerance_mask_upto_pointwise. apply shape_grid_map. Qed.

Lemma shape_build_mask img rgb : shape (build_mask img rgb) = shape img.
Proof.
  unfold build_mask, morph_close, tolerance_mask.
  by rewrite shape_dilate, shape_erode1, shape_dilate1,
    shape_tolerance_mask_upto.
Qed.

(** The morphology keeps a property that every cell of the tolerance
    mask has. *)
Lemma build_mask_cells (P : Z -> Prop) img rgb :
  Forall (Forall P) (tolerance_mask img rgb) ->
  Forall (Forall P) (build_mask img rgb).
Proof.
  intros Hm. unfold build_mask, morph_close.
  by apply dilate_cells, erode1_cells, dilate1_cells.
Qed.

(** Around a channel between 15 and 240 the third band is the whole
    range [0, 255]: it holds every 8-bit pixel. *)
Lemma in_band_3_full (target : Z * Z * Z) (p : pixel) :
  (let '(t0, t1, t2) := target in
   15 <= t0 <= 240 /\ 15 <= t1 <= 240 /\ 15 <= t2 <= 240) ->
  is_pixel p -> in_band target 3 p = true.
Proof.
  rewrite in_band_true. destruct target as [[t0 t1] t2], p as [[p0 p1] p2].
  unfold is_pixel, is_u8, clamp, tol. lia.
Qed.

Lemma watermark_color_of_detectable indices :
  Forall (fun idx => (idx < 512)%nat) indices ->
  detectable (watermark_color_of indices).
Proof.
  intros Hidx. rewrite watermark_color_of_first.
  destruct (head _) as [idx|] eqn:Hhead.
  - apply head_Some_elem_of, list_elem_of_filter in Hhead as [_ Hin].
    rewrite Forall_forall in Hidx. apply Hidx in Hin.
    pose proof (unravel_index_bounds idx Hin) as Hb.
    unfold bin_center. destruct (unravel_index idx) as [[c0 c1] c2].
    unfold detectable. lia.
  - unfold fallback_color, detectable. lia.
Qed.

Lemma watermark_color_rgb_detectable img :
  detectable (watermark_color_rgb img).
Proof.
  apply watermark_color_of_detectable, Forall_forall.
  apply sorted_indices_lt.
Qed.

(** For a detectable colour the tolerance mask has every cell set. *)
Lemma tolerance_mask_full img rgb :
  is_image img -> detectable rgb ->
  Forall (Forall (fun v => 0 < v <= 255)) (tolerance_mask img rgb).
Proof.
  intros Himg Hrgb. destruct rgb as [[r g] b].
  assert (Hpx : is_pixel (r, g, b))
    by (unfold detectable, is_pixel, is_u8 in *; lia).
  destruct (target_bgr_u8 r g b Hpx) as [Ht Hpx'].
  rewrite Forall_grid_at2. intros y x v.
  unfold tolerance_mask. rewrite tolerance_mask_upto_pointwise, at2_grid_map.
  destruct (at2 img y x) as [p|] eqn:Hp; [|done]. rewrite Ht. intros Hv.
  assert (v = acc_px (b, g, r) [1; 2; 3] (band_px (b, g, r) 1 p) p) as ->
    by (by injection Hv).
  destruct (acc_px_cases (b, g, r) p Hpx') as (_ & _ & ->).
  assert (Hp' : is_pixel p).
  { unfold is_image in Himg. rewrite Forall_grid_at2 in Himg. eauto. }
  rewrite (in_band_3_full (b, g, r) p) by (done || unfold detectable in *; lia).
  destruct (in_band (b, g, r) 1 p), (in_band (b, g, r) 2 p); lia.
Qed.

Lemma build_mask_full img rgb :
  is_image img -> detectable rgb ->
  Forall (Forall (fun v => 0 < v <= 255)) (build_mask img rgb).
Proof. intros. by apply build_mask_cells, tolerance_mask_full. Qed.

Lemma watermark_mask_full img :
  is_image img -> Forall (Forall (fun v => 0 < v <= 255)) (watermark_mask img).
Proof.
  intros Himg. unfold watermark_mask.
  apply build_mask_full; [exact Himg|apply watermark_color_rgb_detectable].
Qed.

(** ** Fancy indexing *)

Lemma elem_of_enumerate {A} (l : list A) i a :
  (i, a) ∈ enumerate l <-> l !! i = Some a.
Proof.
  unfold enumerate. rewrite elem_of_lookup_imap. split.
  - by intros (j & b & [= -> ->] & Hb).
  - intros Ha. by exists i, a.
Qed.

(** [np.where(m > 0)] lists exactly the cells the mask selects. *)
Lemma elem_of_np_where m y x : (y, x) ∈ np_where m <-> selected m y x.
Proof.
  unfold np_where, selected, at2. rewrite list_elem_of_bind. split.
  - intros ([y' row] & Hin & Hrow%elem_of_enumerate).
    apply list_elem_of_bind in Hin as ([x' v] & Hin & Hv%elem_of_enumerate).
    destruct (Z.ltb_spec 0 v); [|by apply not_elem_of_nil in Hin].
    apply list_elem_of_singleton in Hin as [= -> ->].
    exists v. by rewrite Hrow.
  - intros (v & Hv & Hpos).
    destruct (m !! y) as [row|] eqn:Hrow; [|done]. simpl in Hv.
    exists (y, row). split; [|by apply elem_of_enumerate].
    apply list_elem_of_bind. exists (x, v).
    split; [|by apply elem_of_enumerate].
    destruct (Z.ltb_spec 0 v); [|lia]. by apply list_elem_of_singleton.
Qed.

Lemma at2_set_px_ne g yx p y x :
  yx <> (y, x) -> at2 (set_px g yx p) y x = at2 g y x.
Proof.
  destruct yx as [y0 x0]. intros Hne. unfold at2, set_px. simpl.
  rewrite list_lookup_alter. case_decide as Hy; [subst y0|done].
  destruct (g !! y) as [row|]; [|done]. simpl.
  apply list_lookup_insert_ne. congruence.
Qed.

Lemma at2_set_px_eq g p y x :
  is_Some (at2 g y x) -> at2 (set_px g (y, x) p) y x = Some p.
Proof.
  unfold at2, set_px. simpl. rewrite list_lookup_alter_eq.
  destruct (g !! y) as [row|]; simpl; [|by intros [??]].
  intros Hx%lookup_lt_is_Some. by apply list_lookup_insert_eq.
Qed.

Lemma shape_set_px g yx p : shape (set_px g yx p) = shape g.
Proof.
  unfold shape, set_px. apply list_eq. intros y.
  rewrite !list_lookup_fmap, list_lookup_alter.
  case_decide; [subst|done].
  destruct (g !! yx.1); simpl; [|done]. by rewrite length_insert.
Qed.

Lemma assign_all_snoc g writes e :
  assign_all g (writes ++ [e]) = set_px (assign_all g writes) e.1 e.2.
Proof. unfold assign_all. by rewrite fold_left_app. Qed.

Lemma shape_assign_all g writes : shape (assign_all g writes) = shape g.
Proof.
  induction writes as [|e writes IH] using rev_ind; [done|].
  by rewrite assign_all_snoc, shape_set_px.
Qed.

(** A cell no write addresses keeps its pixel. *)
Lemma assign_all_untouched g writes y x :
  (forall e, e ∈ writes -> e.1 <> (y, x)) ->
  at2 (assign_all g writes) y x = at2 g y x.
Proof.
  induction writes as [|e writes IH] using rev_ind; intros Hne; [done|].
  rewrite assign_all_snoc, at2_set_px_ne.
  - apply IH. intros e' He'. apply Hne, elem_of_app. by left.
  - apply Hne, elem_of_app. right. by apply list_elem_of_singleton.
Qed.

(** A cell of the array that some write addresses, all of them with one
    pixel, holds that pixel in the end. *)
Lemma assign_all_written g writes y x p :
  is_Some (at2 g y x) ->
  (exists e, e ∈ writes /\ e.1 = (y, x)) ->
  (forall e, e ∈ writes -> e.1 = (y, x) -> e.2 = p) ->
  at2 (assign_all g writes) y x = Some p.
Proof.
  intros Hg. induction writes as [|e writes IH] using rev_ind;
    intros (e0 & Hin & He0) Hall.
  { by apply not_elem_of_nil in Hin. }
  rewrite assign_all_snoc.
  destruct (decide (e.1 = (y, x))) as [He|He].
  - rewrite He, (Hall e); [|apply elem_of_app; right;
                             by apply list_elem_of_singleton|done].
    apply at2_set_px_eq.
    apply (shape_at2_is_Some g); [|done].
    by rewrite shape_assign_all.
  - rewrite at2_set_px_ne by done. apply IH.
    + apply elem_of_app in Hin as [Hin|Hin%list_elem_of_singleton]; [eauto|].
      congruence.
    + intros e' He'. apply Hall, elem_of_app. by left.
Qed.

Lemma zip_fmap_diag {A B} (f : A -> B) (l : list A) :
  zip l (f <$> l) = (fun a => (a, f a)) <$> l.
Proof. induction l as [|a l IH]; [done|]. csimpl. by f_equal. Qed.

Lemma boolean_assign_index g original m :
  boolean_assign g m (boolean_index original m)
  = assign_all g ((fun c => (c, get_px original c)) <$> np_where m).
Proof. unfold boolean_assign, boolean_index. by rewrite zip_fmap_diag. Qed.

Lemma whiten_assign_all result keep_mask y_coords x_coords :
  whiten result keep_mask y_coords x_coords
  = assign_all result (whiten_writes keep_mask y_coords x_coords).
Proof.
  unfold whiten, whiten_writes, assign_all.
  generalize (enumerate keep_mask). intros l. revert result.
  induction l as [|[i b] l IH]; intros result; [done|].
  simpl. destruct b; simpl; apply IH.
Qed.

(** ** Refinement and compositing, cell by cell *)

Lemma at2_hsv_adjusted_of img mask y x :
  at2 (hsv_adjusted_of img mask) y x
  = (m ← at2 mask y x; px ← at2 img y x; Some (adj_px m px)).
Proof.
  unfold hsv_adjusted_of, desaturate.
  rewrite at2_grid_zip_with, at2_grid_map.
  destruct (at2 mask y x) as [m|]; [|done]. simpl.
  destruct (at2 img y x) as [px|]; [|done]. simpl.
  unfold adj_px, zero_saturation. by destruct (0 <? m).
Qed.

Lemma at2_refined_mask_of img mask y x :
  at2 (refined_mask_of img mask) y x
  = (m ← at2 mask y x; px ← at2 img y x; Some (refined_px m px)).
Proof.
  unfold refined_mask_of, refine.
  rewrite !at2_grid_zip_with, !at2_grid_map, at2_hsv_adjusted_of.
  destruct (at2 mask y x) as [m|]; [|done]. simpl.
  destruct (at2 img y x) as [px|]; [|done]. simpl.
  reflexivity.
Qed.

Lemma at2_text_mask_of img mask y x :
  at2 (text_mask_of img mask) y x
  = (m ← at2 mask y x; px ← at2 img y x; Some (text_px m px)).
Proof.
  unfold text_mask_of. rewrite at2_grid_zip_with, at2_refined_mask_of.
  destruct (at2 mask y x) as [m|]; [|done]. simpl.
  by destruct (at2 img y x) as [px|].
Qed.

Lemma land_bitwise_not_self m : is_u8 m -> Z.land m (bitwise_not m) = 0.
Proof.
  intros Hm. unfold bitwise_not. apply Z.bits_inj'. intros n Hn.
  rewrite Z.land_spec, Z.lxor_spec, Z.bits_0.
  destruct (Z.testbit m n) eqn:Hb; [|done]. simpl.
  destruct (Z.lt_ge_cases n 8) as [Hlt|Hge].
  - assert (Z.testbit 255 n = true) as ->; [|done].
    change 255 with (Z.ones 8). apply Z.ones_spec_low. lia.
  - exfalso. unfold is_u8 in Hm.
    assert (m = m mod 2 ^ 8) as Hmod by (rewrite Z.mod_small; lia).
    rewrite Hmod, Z.mod_pow2_bits_high in Hb by lia. done.
Qed.

Lemma land_bitwise_not_zero m : is_u8 m -> Z.land m (bitwise_not 0) = m.
Proof.
  intros Hm. unfold bitwise_not.
  change (Z.lxor 0 255) with (Z.ones 8). rewrite Z.land_ones by lia.
  unfold is_u8 in Hm. apply Z.mod_small. lia.
Qed.

(** The refined mask keeps the mask value or clears it; the text mask
    holds the mask value where the refined mask was cleared. *)
Lemma refined_px_cases m px : refined_px m px = m \/ refined_px m px = 0.
Proof.
  unfold refined_px.
  destruct ((adj_px m px).2 <? 175), (30 <? (adj_px m px).1.2); auto.
Qed.

Lemma text_px_cases m px :
  is_u8 m ->
  (0 < refined_px m px /\ refined_px m px = m /\ text_px m px = 0)
  \/ (refined_px m px = 0 /\ text_px m px = m).
Proof.
  intros Hm. unfold text_px.
  destruct (refined_px_cases m px) as [Hr|Hr]; rewrite Hr.
  - destruct (decide (m = 0)) as [->|Hne].
    + right. by rewrite land_bitwise_not_zero.
    + left. rewrite land_bitwise_not_self by done. unfold is_u8 in Hm. lia.
  - right. by rewrite land_bitwise_not_zero.
Qed.

Lemma get_px_at2 (img : image) y x px :
  at2 img y x = Some px -> get_px img (y, x) = px.
Proof. unfold get_px. simpl. by intros ->. Qed.

Lemma elem_of_whiten_writes (keep : nat * nat -> bool) coords e :
  e ∈ whiten_writes (keep <$> coords) (fst <$> coords) (snd <$> coords)
  <-> exists c, c ∈ coords /\ keep c = true /\ e = (c, white).
Proof.
  unfold whiten_writes. rewrite list_elem_of_omap. split.
  - intros ([i b] & Hin%elem_of_enumerate & He). simpl in He.
    destruct b; [|done]. injection He as <-.
    rewrite list_lookup_fmap in Hin.
    destruct (coords !! i) as [c|] eqn:Hc; [|done]. injection Hin as Hk.
    exists c. split; [by eapply list_elem_of_lookup_2|]. split; [done|].
    rewrite !nth_lookup, !list_lookup_fmap, Hc. by destruct c.
  - intros (c & [i Hc]%list_elem_of_lookup & Hk & ->).
    exists (i, true). split.
    + apply elem_of_enumerate. by rewrite list_lookup_fmap, Hc, <- Hk.
    + simpl. rewrite !nth_lookup, !list_lookup_fmap, Hc. by destruct c.
Qed.

Section CompositorFacts.

Variable chroma : Z -> Z -> Z -> pixel.

Lemma at2_desaturated_of img mask y x :
  at2 (desaturated_of chroma img mask) y x
  = (m ← at2 mask y x; px ← at2 img y x; Some (hsv2bgr chroma (adj_px m px))).
Proof.
  unfold desaturated_of. rewrite at2_grid_map, at2_hsv_adjusted_of.
  destruct (at2 mask y x) as [m|]; [|done]. simpl.
  by destruct (at2 img y x) as [px|].
Qed.

Lemma composite_unfold img mask :
  composite chroma img mask
  = assign_all
      (assign_all (desaturated_of chroma img mask)
         ((fun c => (c, get_px img c)) <$> np_where (text_mask_of img mask)))
      (whiten_writes
         ((fun c => 50 <=? color_diff_u8 (get_px img c))
          <$> np_where (refined_mask_of img mask))
         (fst <$> np_where (refined_mask_of img mask))
         (snd <$> np_where (refined_mask_of img mask))).
Proof.
  unfold composite. rewrite whiten_assign_all, boolean_assign_index.
  unfold boolean_index. by rewrite <- !list_fmap_compose.
Qed.

Lemma shape_composite img mask :
  shape mask = shape img -> shape (composite chroma img mask) = shape img.
Proof.
  intros Hs. rewrite composite_unfold, !shape_assign_all.
  unfold desaturated_of, hsv_adjusted_of, desaturate.
  rewrite shape_grid_map, shape_grid_zip_with; [done|].
  by rewrite shape_grid_map.
Qed.

(** Every cell of the composited image, from its mask value and its
    original pixel. *)
Lemma at2_composite img mask y x m px :
  is_u8 m -> at2 mask y x = Some m -> at2 img y x = Some px ->
  at2 (composite chroma img mask) y x = Some (composite_px chroma m px).
Proof.
  intros Hm Hmask Himg. rewrite composite_unfold.
  set (text_writes := (fun c => (c, get_px img c))
                      <$> np_where (text_mask_of img mask)).
  set (keep := fun c : nat * nat => 50 <=? color_diff_u8 (get_px img c)).
  set (coords := np_where (refined_mask_of img mask)).
  set (white_writes := whiten_writes (keep <$> coords) coords.*1 coords.*2).
  assert (Hdes : at2 (desaturated_of chroma img mask) y x
                 = Some (hsv2bgr chroma (adj_px m px)))
    by (by rewrite at2_desaturated_of, Hmask, Himg).
  assert (Hsel_r : selected (refined_mask_of img mask) y x
                   <-> 0 < refined_px m px).
  { unfold selected. rewrite at2_refined_mask_of, Hmask, Himg. simpl.
    split; [by intros (v & [= <-] & ?)|eauto]. }
  assert (Hsel_t : selected (text_mask_of img mask) y x <-> 0 < text_px m px).
  { unfold selected. rewrite at2_text_mask_of, Hmask, Himg. simpl.
    split; [by intros (v & [= <-] & ?)|eauto]. }
  assert (Htext_in : forall e, e ∈ text_writes -> e.1 = (y, x) ->
                               0 < text_px m px /\ e.2 = px).
  { intros e (c & -> & Hc)%list_elem_of_fmap. simpl. intros ->.
    apply elem_of_np_where in Hc. split; [by apply Hsel_t|].
    by apply get_px_at2. }
  assert (Hwhite_in : forall e, e ∈ white_writes -> e.1 = (y, x) ->
            0 < refined_px m px /\ 50 <= color_diff_u8 px /\ e.2 = white).
  { intros e (c & Hc & Hk & ->)%elem_of_whiten_writes. simpl. intros ->.
    apply elem_of_np_where in Hc. unfold keep in Hk.
    rewrite (get_px_at2 _ _ _ _ Himg) in Hk.
    split; [by apply Hsel_r|]. split; [by apply Z.leb_le|done]. }
  assert (Hsome : is_Some (at2 (assign_all (desaturated_of chroma img mask)
                                           text_writes) y x)).
  { apply (shape_at2_is_Some (desaturated_of chroma img mask));
      [by rewrite shape_assign_all|by rewrite Hdes]. }
  unfold composite_px.
  destruct (text_px_cases m px Hm) as [(Hr & _ & Ht)|(Hr & Ht)].
  - (* a cell of the refined mask *)
    destruct (Z.ltb_spec 0 (refined_px m px)); [|lia].
    assert (at2 (assign_all (desaturated_of chroma img mask) text_writes) y x
            = Some (hsv2bgr chroma (adj_px m px))) as Hres1.
    { rewrite assign_all_untouched; [done|].
      intros e He Hyx. destruct (Htext_in e He Hyx). lia. }
    destruct (Z.leb_spec 50 (color_diff_u8 px)) as [Hd|Hd].
    + apply assign_all_written; [done| |].
      * exists ((y, x), white). split; [|done].
        apply elem_of_whiten_writes. exists (y, x). split_and!; [|  |done].
        -- apply elem_of_np_where. by apply Hsel_r.
        -- unfold keep. rewrite (get_px_at2 _ _ _ _ Himg). by apply Z.leb_le.
      * intros e He Hyx. by destruct (Hwhite_in e He Hyx) as (_ & _ & ->).
    + rewrite assign_all_untouched; [done|].
      intros e He Hyx. destruct (Hwhite_in e He Hyx) as (_ & ? & _). lia.
  - (* a cell outside the refined mask *)
    rewrite Hr. simpl.
    rewrite assign_all_untouched by
      (intros e He Hyx; destruct (Hwhite_in e He Hyx); lia).
    destruct (Z.ltb_spec 0 (text_px m px)) as [Hpos|Hnpos].
    + apply assign_all_written; [by rewrite Hdes| |].
      * exists ((y, x), px). split; [|done].
        apply list_elem_of_fmap. exists (y, x).
        split; [by rewrite (get_px_at2 _ _ _ _ Himg)|].
        apply elem_of_np_where. by apply Hsel_t.
      * intros e He Hyx. by destruct (Htext_in e He Hyx).
    + rewrite assign_all_untouched; [done|].
      intros e He Hyx. destruct (Htext_in e He Hyx). lia.
Qed.

End CompositorFacts.

(** ** The claims on refinement and compositing *)

Lemma color_diff_u8_spread p : is_pixel p -> color_diff_u8 p = channel_spread p.
Proof.
  destruct p as [[c0 c1] c2]. unfold is_pixel, is_u8, color_diff_u8,
    channel_spread, max3, min3. intros (? & ? & ?). apply Z.mod_small. lia.
Qed.

Lemma bgr2hsv_value p : (bgr2hsv p).2 = max_channel p.
Proof. by destruct p as [[b g] r]. Qed.

Lemma hsv2bgr_zero_saturation chroma c :
  hsv2bgr chroma (zero_saturation c) = (c.2, c.2, c.2).
Proof. by destruct c as [[h s] v]. Qed.

Lemma finish_composite chroma img mask :
  np_sum mask <> 0 ->
  finish chroma img mask = (ReturnResult, composite chroma img mask).
Proof. unfold finish. intros H. by destruct (Z.eqb_spec (np_sum mask) 0). Qed.

Lemma is_mask_at2 mask y x m : is_mask mask -> at2 mask y x = Some m -> is_u8 m.
Proof. unfold is_mask. rewrite Forall_grid_at2. eauto. Qed.

Lemma shape_at2_None {A B} (g : grid A) (k : grid B) y x :
  shape g = shape k -> at2 g y x = None -> at2 k y x = None.
Proof.
  intros Hs Hg. destruct (at2 k y x) eqn:Hk; [|done].
  destruct (shape_at2_is_Some k g y x) as [a Ha]; [done|by eexists|].
  congruence.
Qed.

(** C1: for every pixel RefinedMask selects, the output pixel is pure
    white when the spread of the original pixel's channels is at least
    50; when the spread is below 50 it is the original pixel with its
    saturation set to zero, that is its largest channel on all three
    channels. *)
Theorem whitening_threshold chroma img mask y x px :
  is_mask mask -> is_pixel px -> np_sum mask <> 0 ->
  at2 img y x = Some px ->
  selected (refined_mask_of img mask) y x ->
  (50 <= channel_spread px ->
   at2 (finish chroma img mask).2 y x = Some (255, 255, 255))
  /\ (channel_spread px < 50 ->
      at2 (finish chroma img mask).2 y x
      = Some (hsv2bgr chroma (zero_saturation (bgr2hsv px)))
      /\ hsv2bgr chroma (zero_saturation (bgr2hsv px))
         = (max_channel px, max_channel px, max_channel px)).
Proof.
  intros Hmask Hpx Hsum Himg (r & Hr & Hpos).
  rewrite finish_composite by done. cbn [snd].
  rewrite at2_refined_mask_of, Himg in Hr.
  destruct (at2 mask y x) as [m|] eqn:Hm; [|done]. simpl in Hr.
  injection Hr as <-.
  pose proof (is_mask_at2 _ _ _ _ Hmask Hm) as Hu8.
  rewrite (at2_composite chroma img mask y x m px) by done.
  unfold composite_px. destruct (Z.ltb_spec 0 (refined_px m px)); [|lia].
  rewrite color_diff_u8_spread by done.
  assert (0 < m) as Hmpos
    by (destruct (refined_px_cases m px) as [E|E]; rewrite E in *; lia).
  assert (adj_px m px = zero_saturation (bgr2hsv px)) as ->
    by (unfold adj_px; by destruct (Z.ltb_spec 0 m); [|lia]).
  split; intros Hspread.
  - by destruct (Z.leb_spec 50 (channel_spread px)); [|lia].
  - destruct (Z.leb_spec 50 (channel_spread px)); [lia|].
    split; [done|]. by rewrite hsv2bgr_zero_saturation, bgr2hsv_value.
Qed.

(** C2: for every pixel TextMask selects, the output pixel is the
    pixel of the original image. *)
Theorem text_pixels_preserved chroma img mask y x px :
  is_mask mask -> np_sum mask <> 0 ->
  at2 img y x = Some px ->
  selected (text_mask_of img mask) y x ->
  at2 (finish chroma img mask).2 y x = Some px.
Proof.
  intros Hmask Hsum Himg (t & Ht & Hpos).
  rewrite finish_composite by done. cbn [snd].
  rewrite at2_text_mask_of, Himg in Ht.
  destruct (at2 mask y x) as [m|] eqn:Hm; [|done]. simpl in Ht.
  injection Ht as <-.
  pose proof (is_mask_at2 _ _ _ _ Hmask Hm) as Hu8.
  rewrite (at2_composite chroma img mask y x m px) by done.
  unfold composite_px.
  destruct (text_px_cases m px Hu8) as [(_ & _ & E)|(E & _)]; [lia|].
  rewrite E. simpl. by destruct (Z.ltb_spec 0 (text_px m px)); [|lia].
Qed.

(** C5: RefinedMask lies inside Mask, RefinedMask and TextMask select
    no common pixel, and together they select exactly the pixels of
    Mask. *)
Theorem refined_text_partition img mask y x :
  is_mask mask -> shape mask = shape img ->
  (selected (refined_mask_of img mask) y x -> selected mask y x)
  /\ ~ (selected (refined_mask_of img mask) y x
        /\ selected (text_mask_of img mask) y x)
  /\ (selected mask y x
      <-> selected (refined_mask_of img mask) y x
          \/ selected (text_mask_of img mask) y x).
Proof.
  intros Hmask Hshape. unfold selected.
  rewrite at2_refined_mask_of, at2_text_mask_of.
  destruct (at2 mask y x) as [m|] eqn:Hm; simpl.
  - destruct (shape_at2_is_Some mask img y x Hshape) as [px Hpx];
      [by eexists|].
    rewrite Hpx. simpl.
    pose proof (is_mask_at2 _ _ _ _ Hmask Hm) as Hu8.
    destruct (text_px_cases m px Hu8) as [(Hr & Er & Et)|(Er & Et)].
    + split_and!.
      * intros _. exists m. split; [done|lia].
      * intros [_ (v & [= <-] & ?)]. lia.
      * split; [intros _; left; eauto|]. intros _. exists m. split; [done|lia].
    + split_and!.
      * intros (v & [= <-] & ?). lia.
      * intros [(v & [= <-] & ?) _]. lia.
      * split.
        -- intros (v & [= <-] & ?). right. exists (text_px m px).
           split; [done|lia].
        -- intros [(v & [= <-] & ?)|(v & [= <-] & ?)]; [lia|].
           exists m. split; [done|lia].
  - split_and!.
    + by intros (v & ? & _).
    + by intros [(v & ? & _) _].
    + split; [by intros (v & ? & _)|]. by intros [(v & ? & _)|(v & ? & _)].
Qed.

(** C4: with a mask that has no set pixel, lines 188-242 return the
    input image at line 192, whatever the later stages would compute:
    no HSV conversion, desaturation or whitening takes part in the
    result. *)
Theorem empty_mask_returns_input chroma img mask :
  Forall (Forall (fun v => v = 0)) mask ->
  finish chroma img mask = (ReturnOriginal, img)
  /\ (forall chroma', finish chroma' img mask = finish chroma img mask).
Proof.
  intros Hzero.
  assert (np_sum mask = 0) as Hsum.
  { unfold np_sum.
    assert (foldr Z.add 0 (concat mask) = 0) as ->; [|done].
    induction Hzero as [|row rows Hrow _ IH]; [done|]. simpl.
    rewrite foldr_app, IH. clear IH.
    induction Hrow as [|v row -> _ IH]; [done|]. simpl. by rewrite IH. }
  assert (forall c, finish c img mask = (ReturnOriginal, img)) as Hfin
    by (intros c; unfold finish; by rewrite Hsum).
  split; [done|intros c; by rewrite !Hfin].
Qed.

(** ** The whole function on its own mask *)

Lemma all_white_is_image img : all_white img -> is_image img.
Proof.
  unfold all_white, is_image. intros H.
  eapply Forall_impl; [done|]. intros row Hrow.
  eapply Forall_impl; [done|]. intros p ->. unfold is_pixel, is_u8, white. lia.
Qed.

(** The detector never returns the fallback colour: it returns the
    centre of a bin, and 230 is the centre of none. *)
Lemma watermark_color_rgb_not_fallback img :
  watermark_color_rgb img <> fallback_color.
Proof.
  destruct (scan_bins_all_bins (sorted_indices img)
              (sorted_indices_Permutation img)) as (idx & Hhead & Hin & _).
  unfold watermark_color_rgb. rewrite watermark_color_of_first, Hhead.
  unfold bin_center, fallback_color.
  destruct (unravel_index idx) as [[c0 c1] c2]. intros [= ? ? ?]. lia.
Qed.

Lemma foldr_add_bounds (l : list Z) :
  Forall (fun v => 0 < v <= 255) l ->
  Z.of_nat (length l) <= foldr Z.add 0 l <= 255 * Z.of_nat (length l).
Proof.
  induction 1 as [|v l Hv _ IH]; simpl; [lia|].
  rewrite Nat2Z.inj_succ. lia.
Qed.

Lemma length_concat_shape {A B} (g : grid A) (k : grid B) :
  shape g = shape k -> length (concat g) = length (concat k).
Proof.
  unfold shape. revert k.
  induction g as [|rg g IH]; intros [|rk k]; simpl; try done.
  intros [= Hr Hs]. rewrite !length_app, Hr. f_equal. by apply IH.
Qed.

(** A mask with every cell set, over an image that has a pixel and
    fits in memory, has a nonzero sum: the function goes on to the
    compositing. *)
Lemma np_sum_full_mask {A} (img : grid A) mask :
  shape mask = shape img ->
  Forall (Forall (fun v => 0 < v <= 255)) mask ->
  concat img <> [] ->
  Z.of_nat (length (concat img)) < 2 ^ 56 ->
  np_sum mask <> 0.
Proof.
  intros Hshape Hfull Hne Hsize. unfold np_sum.
  pose proof (foldr_add_bounds _ (Forall_concat _ _ Hfull)) as Hb.
  rewrite (length_concat_shape mask img Hshape) in Hb.
  assert (0 < Z.of_nat (length (concat img)))
    by (destruct (concat img); [done|simpl; lia]).
  rewrite Z.mod_small; lia.
Qed.

(** With every cell of the mask set, a pixel darker than 175 is kept,
    a brighter one becomes white when its spread reaches 50 and its
    largest channel on all three channels otherwise. *)
Lemma composite_px_full_mask chroma m px :
  0 < m <= 255 -> is_pixel px ->
  composite_px chroma m px
  = if max_channel px <? 175 then px
    else if 50 <=? channel_spread px then white
    else (max_channel px, max_channel px, max_channel px).
Proof.
  intros Hm Hpx. unfold composite_px.
  assert (Hadj : adj_px m px = zero_saturation (bgr2hsv px))
    by (unfold adj_px; by destruct (Z.ltb_spec 0 m); [|lia]).
  assert (Hu8 : is_u8 m) by (unfold is_u8; lia).
  assert (Href : refined_px m px = if max_channel px <? 175 then 0 else m).
  { unfold refined_px. rewrite Hadj. unfold zero_saturation. simpl.
    by rewrite bgr2hsv_value. }
  destruct (text_px_cases m px Hu8) as [(Hr & Er & Et)|(Er & Et)].
  - rewrite Href in Er. destruct (max_channel px <? 175); [lia|].
    destruct (Z.ltb_spec 0 (refined_px m px)); [|lia].
    rewrite color_diff_u8_spread, Hadj, hsv2bgr_zero_saturation,
      bgr2hsv_value by done. done.
  - rewrite Er, Et. rewrite Href in Er.
    destruct (max_channel px <? 175); [|lia]. simpl.
    by destruct (Z.ltb_spec 0 m); [|lia].
Qed.

(** C7, as amended: on an all-white image the mask built around the
    fallback colour (230,230,230) has every cell set, and so has the
    mask the function builds; when the image has a pixel and fits in
    memory the function does not return early; when the image has a
    pixel the output is the input, because compositing leaves a white
    pixel white. *)
Theorem all_white_image_unchanged chroma img :
  all_white img ->
  Forall (Forall (fun v => 0 < v)) (build_mask img (230, 230, 230))
  /\ Forall (Forall (fun v => 0 < v)) (watermark_mask img)
  /\ (concat img <> [] -> Z.of_nat (length (concat img)) < 2 ^ 56 ->
      (remove_watermark_trace chroma img).1 = ReturnResult)
  /\ (concat img <> [] -> remove_watermark_from_image chroma img = img).
Proof.
  intros Hwhite. pose proof (all_white_is_image img Hwhite) as Himg.
  pose proof (watermark_mask_full img Himg) as Hfull.
  assert (Hweak : forall m, Forall (Forall (fun v => 0 < v <= 255)) m ->
                            Forall (Forall (fun v => 0 < v)) m).
  { intros m Hm. eapply Forall_impl; [done|]. intros row Hrow.
    eapply Forall_impl; [done|]. simpl. lia. }
  assert (Hshape : shape (watermark_mask img) = shape img)
    by (unfold watermark_mask; apply shape_build_mask).
  split_and!.
  - apply Hweak, build_mask_full; [exact Himg|]. unfold detectable. lia.
  - apply Hweak. exact Hfull.
  - intros Hne Hsize. unfold remove_watermark_trace.
    set (mask := watermark_mask img) in *. clearbody mask.
    rewrite finish_composite; [reflexivity|].
    apply (np_sum_full_mask img); assumption.
  - intros _.
    unfold remove_watermark_from_image, remove_watermark_trace, finish.
    set (mask := watermark_mask img) in *. clearbody mask.
    destruct (np_sum mask =? 0); [reflexivity|]. cbn [snd].
    apply grid_eq; [by apply shape_composite|]. intros y x.
    destruct (at2 img y x) as [px|] eqn:Hpx.
    + destruct (shape_at2_is_Some img mask y x) as [m Hm];
        [done|by eexists|].
      assert (0 < m <= 255) as Hmb
        by (rewrite Forall_grid_at2 in Hfull; eauto).
      rewrite (at2_composite chroma img mask y x m px);
        [|unfold is_u8; lia|done|done].
      assert (px = white) as ->
        by (unfold all_white in Hwhite; rewrite Forall_grid_at2 in Hwhite; eauto).
      rewrite composite_px_full_mask; [reflexivity|done|].
      unfold is_pixel, is_u8, white. lia.
    + apply (shape_at2_None img); [|done].
      symmetry. by apply shape_composite.
Qed.

(** On an 8-bit image that has a pixel and fits in memory the function
    never returns early, and every output pixel follows from its
    original pixel alone: kept when darker than 175, white when its
    spread reaches 50, its largest channel on all three channels
    otherwise. *)
Lemma remove_watermark_runs_compositing chroma img :
  is_image img -> concat img <> [] ->
  Z.of_nat (length (concat img)) < 2 ^ 56 ->
  remove_watermark_trace chroma img
  = (ReturnResult, composite chroma img (watermark_mask img)).
Proof.
  intros Himg Hne Hsize. unfold remove_watermark_trace.
  pose proof (watermark_mask_full img Himg) as Hfull.
  assert (Hshape : shape (watermark_mask img) = shape img)
    by (unfold watermark_mask; apply shape_build_mask).
  set (mask := watermark_mask img) in *. clearbody mask.
  apply finish_composite. apply (np_sum_full_mask img); assumption.
Qed.

Lemma at2_remove_watermark_from_image chroma img y x px :
  is_image img -> concat img <> [] ->
  Z.of_nat (length (concat img)) < 2 ^ 56 ->
  at2 img y x = Some px ->
  at2 (remove_watermark_from_image chroma img) y x
  = Some (if max_channel px <? 175 then px
          else if 50 <=? channel_spread px then white
          else (max_channel px, max_channel px, max_channel px)).
Proof.
  intros Himg Hne Hsize Hpx. unfold remove_watermark_from_image.
  rewrite remove_watermark_runs_compositing by assumption. cbn [snd].
  pose proof (watermark_mask_full img Himg) as Hfull.
  assert (Hshape : shape (watermark_mask img) = shape img)
    by (unfold watermark_mask; apply shape_build_mask).
  set (mask := watermark_mask img) in *. clearbody mask.
  destruct (shape_at2_is_Some img mask y x) as [m Hm]; [done|by eexists|].
  assert (0 < m <= 255) as Hmb by (rewrite Forall_grid_at2 in Hfull; eauto).
  assert (is_pixel px) as Hu8
    by (unfold is_image in Himg; rewrite Forall_grid_at2 in Himg; eauto).
  rewrite (at2_composite chroma img mask y x m px);
    [|unfold is_u8; lia|done|done].
  by rewrite composite_px_full_mask.
Qed.

(** The mask of the function selects every pixel of an 8-bit image. *)
Lemma watermark_mask_selects img y x px :
  is_image img -> at2 img y x = Some px ->
  selected (watermark_mask img) y x.
Proof.
  intros Himg Hpx.
  pose proof (watermark_mask_full img Himg) as Hfull.
  assert (Hshape : shape (watermark_mask img) = shape img)
    by (unfold watermark_mask; apply shape_build_mask).
  set (mask := watermark_mask img) in *. clearbody mask.
  destruct (shape_at2_is_Some img mask y x) as [m Hm]; [done|by eexists|].
  exists m. split; [done|].
  rewrite Forall_grid_at2 in Hfull. by destruct (Hfull y x m Hm).
Qed.

(** With a set mask cell, RefinedMask keeps the cell of a pixel whose
    largest channel is at least 175. *)
Lemma refined_px_bright m px :
  0 < m -> 175 <= max_channel px -> refined_px m px = m.
Proof.
  intros Hm Hv. unfold refined_px.
  assert (adj_px m px = zero_saturation (bgr2hsv px)) as ->
    by (unfold adj_px; by destruct (Z.ltb_spec 0 m); [|lia]).
  unfold zero_saturation. cbn [fst snd]. rewrite bgr2hsv_value.
  by destruct (Z.ltb_spec (max_channel px) 175); [lia|].
Qed.

(** C6: the function changes masked pixels only: a pixel of an 8-bit
    image whose output pixel is not the original pixel is selected by
    Mask, and more precisely by RefinedMask. The mask the function
    builds selects every pixel of such an image, so that no pixel lies
    outside Mask; the pixels the function keeps as they are lie in
    TextMask. *)
Theorem changed_pixels_are_masked chroma img y x px :
  is_image img -> concat img <> [] ->
  Z.of_nat (length (concat img)) < 2 ^ 56 ->
  at2 img y x = Some px ->
  at2 (remove_watermark_from_image chroma img) y x <> Some px ->
  selected (watermark_mask img) y x
  /\ selected (refined_mask_of img (watermark_mask img)) y x.
Proof.
  intros Himg Hne Hsize Hpx Hout.
  rewrite (at2_remove_watermark_from_image chroma img y x px) in Hout
    by assumption.
  destruct (Z.ltb_spec (max_channel px) 175) as [Hd|Hb]; [by destruct Hout|].
  destruct (watermark_mask_selects img y x px Himg Hpx) as (m & Hm & Hpos).
  split; [by exists m|].
  exists m. split; [|done].
  rewrite at2_refined_mask_of.
  set (mask := watermark_mask img) in *. clearbody mask.
  rewrite Hm, Hpx. cbn [mbind option_bind]. f_equal.
  by apply refined_px_bright.
Qed.

(** ** The claims on concrete images *)

Ltac by_decision := apply (bool_decide_unpack _); vm_compute; exact I.

Lemma is_mask_sample_mask : is_mask sample_mask.
Proof. unfold is_mask, is_u8. by_decision. Defined.

Lemma np_sum_sample_mask : np_sum sample_mask <> 0.
Proof. vm_compute. discriminate. Defined.

Lemma is_image_sample_image : is_image sample_image.
Proof.
  unfold is_image, sample_image.
  repeat (match goal with |- Forall _ _ => constructor end);
    unfold is_pixel, is_u8; lia.
Defined.

Lemma sample_image_has_pixel : concat sample_image <> [].
Proof. discriminate. Defined.

Lemma sample_image_fits : Z.of_nat (length (concat sample_image)) < 2 ^ 56.
Proof. vm_compute. reflexivity. Defined.



Lemma changed_pixels_are_masked_witness :
  is_image sample_image /\ concat sample_image <> []
  /\ Z.of_nat (length (concat sample_image)) < 2 ^ 56
  /\ at2 sample_image 1 2 = Some (100, 200, 250)
  /\ at2 (remove_watermark_from_image chroma_exact sample_image) 1 2
     <> Some (100, 200, 250)
  /\ selected (watermark_mask sample_image) 1 2
  /\ selected (refined_mask_of sample_image (watermark_mask sample_image)) 1 2.
Proof.
  assert (Hout : at2 (remove_watermark_from_image chroma_exact sample_image)
                   1 2 <> Some (100, 200, 250)).
  { vm_compute. discriminate. }
  destruct (changed_pixels_are_masked chroma_exact sample_image 1 2
              (100, 200, 250) is_image_sample_image sample_image_has_pixel
              sample_image_fits eq_refl Hout) as [Hmask Hrefined].
  split_and!; [exact is_image_sample_image|exact sample_image_has_pixel
              |exact sample_image_fits|reflexivity|exact Hout
              |exact Hmask|exact Hrefined].
Defined.

Lemma whitening_threshold_witness :
  is_mask sample_mask /\ is_pixel (0, 1, 255) /\ np_sum sample_mask <> 0
  /\ at2 sample_image 1 0 = Some (0, 1, 255)
  /\ selected (refined_mask_of sample_image sample_mask) 1 0
  /\ (50 <= channel_spread (0, 1, 255) ->
      at2 (finish chroma_exact sample_image sample_mask).2 1 0
      = Some (255, 255, 255)).
Proof.
  assert (Hpx : is_pixel (0, 1, 255)) by (unfold is_pixel, is_u8; lia).
  assert (Hsel : selected (refined_mask_of sample_image sample_mask) 1 0)
    by (exists 254; split; [reflexivity|lia]).
  split_and!; [exact is_mask_sample_mask|exact Hpx|exact np_sum_sample_mask
              |reflexivity|exact Hsel|].
  apply (whitening_threshold chroma_exact sample_image sample_mask 1 0
           (0, 1, 255) is_mask_sample_mask Hpx np_sum_sample_mask
           eq_refl Hsel).
Defined.

Lemma text_pixels_preserved_witness :
  is_mask sample_mask /\ np_sum sample_mask <> 0
  /\ at2 sample_image 0 2 = Some (10, 20, 30)
  /\ selected (text_mask_of sample_image sample_mask) 0 2
  /\ at2 (finish chroma_exact sample_image sample_mask).2 0 2
     = Some (10, 20, 30).
Proof.
  assert (Hsel : selected (text_mask_of sample_image sample_mask) 0 2)
    by (exists 255; split; [reflexivity|lia]).
  split_and!; [exact is_mask_sample_mask|exact np_sum_sample_mask
              |reflexivity|exact Hsel|].
  exact (text_pixels_preserved chroma_exact sample_image sample_mask 0 2
           (10, 20, 30) is_mask_sample_mask np_sum_sample_mask eq_refl Hsel).
Defined.

Lemma refined_text_partition_witness :
  is_mask sample_mask /\ shape sample_mask = shape sample_image
  /\ (selected sample_mask 1 0
      <-> selected (refined_mask_of sample_image sample_mask) 1 0
          \/ selected (text_mask_of sample_image sample_mask) 1 0).
Proof.
  split_and!; [exact is_mask_sample_mask|reflexivity|].
  apply (refined_text_partition sample_image sample_mask 1 0
           is_mask_sample_mask eq_refl).
Defined.

Lemma empty_mask_returns_input_witness :
  Forall (Forall (fun v => v = 0)) zero_mask
  /\ finish chroma_exact sample_image zero_mask = (ReturnOriginal, sample_image).
Proof.
  assert (Hz : Forall (Forall (fun v => v = 0)) zero_mask)
    by (repeat constructor).
  split; [exact Hz|].
  apply (empty_mask_returns_input chroma_exact sample_image zero_mask Hz).
Defined.

Lemma all_white_image_unchanged_witness :
  all_white white_1x1 /\ concat white_1x1 <> []
  /\ remove_watermark_from_image chroma_exact white_1x1 = white_1x1.
Proof.
  assert (Hw : all_white white_1x1) by (repeat constructor).
  assert (Hne : concat white_1x1 <> []) by discriminate.
  split_and!; [exact Hw|exact Hne|].
  exact (proj2 (proj2 (proj2 (all_white_image_unchanged chroma_exact
                                white_1x1 Hw))) Hne).
Defined.

(** C7 fails as stated on the 1x1 white image. Its only occupied bin
    fails the gray filter, yet the detector does not return the
    fallback, and the mask built around the fallback is not empty:
    white lies within 80 of 230 on every channel. *)
Lemma scenario_B_fails :
  all_white white_1x1
  /\ (forall idx, 0 < freq white_1x1 idx -> passes_filters idx = false)
  /\ watermark_color_rgb white_1x1 <> (230, 230, 230)
  /\ np_sum (build_mask white_1x1 (230, 230, 230)) <> 0
  /\ ~ (watermark_color_rgb white_1x1 = (230, 230, 230)
        /\ np_sum (tolerance_mask white_1x1 (230, 230, 230)) = 0
        /\ forall chroma,
             remove_watermark_from_image chroma white_1x1 = white_1x1).
Proof.
  split_and!.
  - repeat constructor.
  - intros idx Hfreq. destruct (decide (idx = 511%nat)) as [->|Hne].
    + reflexivity.
    + exfalso. unfold freq, count_bin, white_1x1 in Hfreq.
      cbn [concat app] in Hfreq.
      rewrite filter_cons_False, filter_nil in Hfreq; [simpl in Hfreq; lia|].
      change (flat_bin (255, 255, 255)) with 511%nat. congruence.
  - apply watermark_color_rgb_not_fallback.
  - vm_compute. discriminate.
  - intros (_ & Hsum & _). vm_compute in Hsum. discriminate.
Qed.

Lemma accumulated_mask_is_union_of_bands_witness :
  is_pixel (230, 230, 230)
  /\ truthiness (tolerance_mask sample_image (230, 230, 230))
     = union_of_bands sample_image (target_bgr (230, 230, 230)).
Proof.
  assert (Hpx : is_pixel (230, 230, 230)) by (unfold is_pixel, is_u8; lia).
  split; [exact Hpx|].
  apply (accumulated_mask_is_union_of_bands sample_image (230, 230, 230) Hpx).
Defined.

Lemma tolerance_mask_monotone_witness :
  is_pixel (100, 40, 20)
  /\ (selected (tolerance_mask_upto 1 sample_image (100, 40, 20)) 0 2 ->
      selected (tolerance_mask_upto 2 sample_image (100, 40, 20)) 0 2)
  /\ selected (tolerance_mask_upto 1 sample_image (100, 40, 20)) 0 2.
Proof.
  assert (Hpx : is_pixel (100, 40, 20)) by (unfold is_pixel, is_u8; lia).
  split_and!; [exact Hpx| |exists 254; split; [reflexivity|lia]].
  apply (tolerance_mask_monotone sample_image (100, 40, 20) 0 2 Hpx).
Defined.

(** * The whole function, pixel by pixel *)

Lemma grid_map_id_iff {A} (f : A -> A) (g : grid A) :
  grid_map f g = g <-> Forall (Forall (fun a => f a = a)) g.
Proof.
  rewrite Forall_grid_at2. split.
  - intros Heq y x a Ha.
    assert (at2 (grid_map f g) y x = Some a) as Hfa by (by rewrite Heq).
    rewrite at2_grid_map, Ha in Hfa. by injection Hfa.
  - intros Hfix. apply grid_eq; [apply shape_grid_map|]. intros y x.
    rewrite at2_grid_map. destruct (at2 g y x) as [a|] eqn:Ha; [|done].
    simpl. f_equal. eauto.
Qed.

(** With every cell of the mask set, the compositing applies
    [pixel_rule] to every pixel. *)
Lemma composite_full_mask chroma img mask :
  is_image img -> shape mask = shape img ->
  Forall (Forall (fun v => 0 < v <= 255)) mask ->
  composite chroma img mask = grid_map pixel_rule img.
Proof.
  intros Himg Hshape Hfull.
  apply grid_eq; [by rewrite shape_composite, shape_grid_map|]. intros y x.
  rewrite at2_grid_map. destruct (at2 img y x) as [px|] eqn:Hpx.
  - destruct (shape_at2_is_Some img mask y x) as [m Hm]; [done|by eexists|].
    assert (0 < m <= 255) as Hmb by (rewrite Forall_grid_at2 in Hfull; eauto).
    assert (is_pixel px) as Hu8
      by (unfold is_image in Himg; rewrite Forall_grid_at2 in Himg; eauto).
    rewrite (at2_composite chroma img mask y x m px);
      [|unfold is_u8; lia|done|done].
    by rewrite composite_px_full_mask.
  - apply (shape_at2_None img); [|done]. symmetry. by apply shape_composite.
Qed.

(** The two ways the function ends on an 8-bit image. *)
Lemma remove_watermark_cases chroma img :
  is_image img ->
  remove_watermark_from_image chroma img = img
  \/ remove_watermark_from_image chroma img = grid_map pixel_rule img.
Proof.
  intros Himg. unfold remove_watermark_from_image, remove_watermark_trace, finish.
  pose proof (watermark_mask_full img Himg) as Hfull.
  assert (Hshape : shape (watermark_mask img) = shape img)
    by (unfold watermark_mask; apply shape_build_mask).
  set (mask := watermark_mask img) in *. clearbody mask.
  destruct (np_sum mask =? 0); [by left|right]. cbn [snd].
  by apply composite_full_mask.
Qed.

Lemma remove_watermark_is_pixel_rule chroma img :
  is_image img -> concat img <> [] ->
  Z.of_nat (length (concat img)) < 2 ^ 56 ->
  remove_watermark_from_image chroma img = grid_map pixel_rule img.
Proof.
  intros Himg Hne Hsize. unfold remove_watermark_from_image.
  rewrite remove_watermark_runs_compositing by assumption. cbn [snd].
  apply composite_full_mask; [done| |by apply watermark_mask_full].
  unfold watermark_mask. apply shape_build_mask.
Qed.

Lemma pixel_rule_cases px :
  pixel_rule px = px
  \/ pixel_rule px = white
  \/ (pixel_rule px = (max_channel px, max_channel px, max_channel px)
      /\ 175 <= max_channel px).
Proof.
  unfold pixel_rule. destruct (Z.ltb_spec (max_channel px) 175); [by left|].
  destruct (50 <=? channel_spread px); [by right; left|by right; right].
Qed.

Lemma pixel_rule_gray v : 175 <= v -> pixel_rule (v, v, v) = (v, v, v).
Proof.
  intros Hv. unfold pixel_rule, max_channel, channel_spread, max3, min3.
  replace (Z.max (Z.max v v) v) with v by lia.
  replace (Z.min (Z.min v v) v) with v by lia.
  destruct (Z.ltb_spec v 175); [lia|]. by rewrite Z.sub_diag.
Qed.

Lemma pixel_rule_idempotent px : pixel_rule (pixel_rule px) = pixel_rule px.
Proof.
  destruct (pixel_rule_cases px) as [E|[E|[E Hv]]]; rewrite E.
  - exact E.
  - reflexivity.
  - by apply pixel_rule_gray.
Qed.

Lemma pixel_rule_is_pixel px : is_pixel px -> is_pixel (pixel_rule px).
Proof.
  intros Hpx. unfold pixel_rule.
  destruct (max_channel px <? 175); [done|].
  destruct (50 <=? channel_spread px); [unfold is_pixel, is_u8, white; lia|].
  destruct px as [[c0 c1] c2].
  unfold is_pixel, is_u8, max_channel, max3 in *. lia.
Qed.

Lemma pixel_rule_brightens px : is_pixel px -> pixel_le px (pixel_rule px).
Proof.
  intros Hpx. unfold pixel_rule, pixel_le.
  destruct (Z.ltb_spec (max_channel px) 175); [lia|].
  destruct px as [[c0 c1] c2].
  unfold is_pixel, is_u8, max_channel, max3, white in *.
  destruct (50 <=? channel_spread (c0, c1, c2)); simpl; lia.
Qed.

Lemma pixel_rule_fixed px :
  is_pixel px ->
  pixel_rule px = px <-> max_channel px < 175 \/ channel_spread px = 0.
Proof.
  destruct px as [[c0 c1] c2].
  unfold is_pixel, is_u8, pixel_rule, max_channel, channel_spread, white.
  intros (H0 & H1 & H2).
  destruct (Z.ltb_spec (max3 c0 c1 c2) 175) as [Hd|Hb]; [tauto|].
  destruct (Z.leb_spec 50 (max3 c0 c1 c2 - min3 c0 c1 c2)) as [Hs|Hs].
  - split; [|unfold max3, min3 in *; lia].
    intros [= <- <- <-]. unfold max3, min3 in *. lia.
  - split.
    + intros [= E0 E1 E2]. right. unfold max3, min3 in *. lia.
    + intros [?|Hz]; [lia|]. unfold max3, min3 in *.
      f_equal; [f_equal|]; lia.
Qed.

Lemma is_image_grid_map (f : pixel -> pixel) img :
  (forall px, is_pixel px -> is_pixel (f px)) ->
  is_image img -> is_image (grid_map f img).
Proof.
  intros Hf. unfold is_image. rewrite !Forall_grid_at2.
  intros Himg y x v. rewrite at2_grid_map.
  destruct (at2 img y x) as [px|] eqn:Hpx; [|done]. intros [= <-]. eauto.
Qed.

Lemma remove_watermark_all_white chroma img :
  all_white img -> remove_watermark_from_image chroma img = img.
Proof.
  intros Hwhite.
  destruct (remove_watermark_cases chroma img (all_white_is_image img Hwhite))
    as [E|E]; rewrite E; [done|].
  apply grid_map_id_iff. unfold all_white in Hwhite.
  eapply Forall_impl; [exact Hwhite|]. intros row Hrow.
  eapply Forall_impl; [exact Hrow|]. by intros px ->.
Qed.

(** The function ends the same way and with the same image for every
    rounding of the histogram and every order of equal values
    [np.argsort] may return. *)
Lemma remove_watermark_any_order {K : Type} (le : relation K)
    (normalize : list Z -> list K) (np_argsort : list K -> list nat)
    chroma img :
  keeps_length normalize -> sorts_ascending le np_argsort ->
  is_image img -> concat img <> [] ->
  Z.of_nat (length (concat img)) < 2 ^ 56 ->
  finish chroma img
    (build_mask img (watermark_color_rgb_with normalize np_argsort img))
  = remove_watermark_trace chroma img.
Proof.
  intros Hlen Hsort Himg Hne Hsize.
  assert (Hrgb : detectable
                   (watermark_color_rgb_with normalize np_argsort img)).
  { unfold watermark_color_rgb_with.
    apply watermark_color_of_detectable, Forall_forall. intros idx Hidx.
    rewrite (sorted_indices_with_Permutation le normalize np_argsort
               Hlen Hsort) in Hidx.
    apply elem_of_seq in Hidx. lia. }
  rewrite remove_watermark_runs_compositing by assumption.
  set (rgb := watermark_color_rgb_with normalize np_argsort img) in *.
  clearbody rgb.
  pose proof (build_mask_full img rgb Himg Hrgb) as Hfull.
  pose proof (shape_build_mask img rgb) as Hshape.
  rewrite finish_composite by (by apply (np_sum_full_mask img)).
  rewrite (composite_full_mask chroma img _ Himg Hshape Hfull).
  rewrite (composite_full_mask chroma img (watermark_mask img));
    [done|done| |by apply watermark_mask_full].
  unfold watermark_mask. apply shape_build_mask.
Qed.

(** X1: on an 8-bit image that has a pixel and fits in memory, the
    function returns an image of the shape of its input, with a pixel
    wherever the input has one and nowhere else. *)
Theorem remove_watermark_keeps_shape chroma img :
  is_image img -> concat img <> [] ->
  Z.of_nat (length (concat img)) < 2 ^ 56 ->
  shape (remove_watermark_from_image chroma img) = shape img
  /\ forall y x,
       is_Some (at2 (remove_watermark_from_image chroma img) y x)
       <-> is_Some (at2 img y x).
Proof.
  intros Himg Hne Hsize.
  assert (Hshape : shape (remove_watermark_from_image chroma img) = shape img).
  { unfold remove_watermark_from_image.
    rewrite remove_watermark_runs_compositing by assumption. cbn [snd].
    apply shape_composite. unfold watermark_mask. apply shape_build_mask. }
  split; [exact Hshape|]. intros y x.
  split; apply shape_at2_is_Some; done.
Qed.

(** X2: on an 8-bit image that has a pixel and fits in memory, every
    output pixel is a function of the original pixel at the same place
    and of nothing else: the pixel itself when its largest channel is
    below 175, white when its spread is at least 50, and its largest
    channel on all three channels otherwise. *)
Theorem remove_watermark_pixelwise chroma img :
  is_image img -> concat img <> [] ->
  Z.of_nat (length (concat img)) < 2 ^ 56 ->
  remove_watermark_from_image chroma img = grid_map pixel_rule img
  /\ forall y x px,
       at2 img y x = Some px ->
       at2 (remove_watermark_from_image chroma img) y x
       = Some (if max_channel px <? 175 then px
               else if 50 <=? channel_spread px then (255, 255, 255)
               else (max_channel px, max_channel px, max_channel px)).
Proof.
  intros Himg Hne Hsize.
  pose proof (remove_watermark_is_pixel_rule chroma img Himg Hne Hsize) as E.
  split; [exact E|]. intros y x px Hpx.
  by rewrite E, at2_grid_map, Hpx.
Qed.

(** X3: the function is idempotent on 8-bit images that have a pixel
    and fit in memory: cleaning a cleaned page again changes nothing. *)
Theorem remove_watermark_idempotent chroma img :
  is_image img -> concat img <> [] ->
  Z.of_nat (length (concat img)) < 2 ^ 56 ->
  remove_watermark_from_image chroma (remove_watermark_from_image chroma img)
  = remove_watermark_from_image chroma img.
Proof.
  intros Himg Hne Hsize.
  rewrite (remove_watermark_is_pixel_rule chroma img Himg Hne Hsize).
  assert (Himg' : is_image (grid_map pixel_rule img))
    by (apply is_image_grid_map; [apply pixel_rule_is_pixel|done]).
  assert (Hlen : length (concat (grid_map pixel_rule img))
                 = length (concat img))
    by (apply length_concat_shape, shape_grid_map).
  rewrite remove_watermark_is_pixel_rule; [|exact Himg'| |by rewrite Hlen].
  - rewrite grid_map_compose. apply grid_map_ext, pixel_rule_idempotent.
  - intros Hnil. apply Hne. apply length_zero_iff_nil.
    rewrite <- Hlen, Hnil. reflexivity.
Qed.

(** X4: on an 8-bit image the output depends neither on what HSV2BGR
    returns for a triple with saturation, nor on the colour the
    detector picks: the mask built around any bin centre, or around the
    fallback, leads to the same return and the same image. *)
Theorem remove_watermark_ignores_detected_color chroma chroma' img rgb :
  is_image img -> concat img <> [] ->
  Z.of_nat (length (concat img)) < 2 ^ 56 ->
  detectable rgb ->
  finish chroma' img (build_mask img rgb) = remove_watermark_trace chroma img.
Proof.
  intros Himg Hne Hsize Hrgb.
  rewrite remove_watermark_runs_compositing by assumption.
  pose proof (build_mask_full img rgb Himg Hrgb) as Hfull.
  pose proof (shape_build_mask img rgb) as Hshape.
  rewrite finish_composite by (by apply (np_sum_full_mask img)).
  rewrite (composite_full_mask chroma' img _ Himg Hshape Hfull).
  rewrite (composite_full_mask chroma img (watermark_mask img));
    [done|done| |by apply watermark_mask_full].
  unfold watermark_mask. apply shape_build_mask.
Qed.

(** X5: the function never darkens a pixel and keeps an 8-bit image
    8-bit: every channel of an output pixel is at least the channel of
    the original pixel and at most 255. *)
Theorem remove_watermark_never_darkens chroma img :
  is_image img ->
  is_image (remove_watermark_from_image chroma img)
  /\ forall y x px,
       at2 img y x = Some px ->
       exists out,
         at2 (remove_watermark_from_image chroma img) y x = Some out
         /\ pixel_le px out.
Proof.
  intros Himg.
  destruct (remove_watermark_cases chroma img Himg) as [E|E]; rewrite E.
  - split; [done|]. intros y x px Hpx. exists px. split; [done|].
    unfold pixel_le. lia.
  - split; [apply is_image_grid_map; [apply pixel_rule_is_pixel|done]|].
    intros y x px Hpx. exists (pixel_rule px).
    split; [by rewrite at2_grid_map, Hpx|].
    apply pixel_rule_brightens.
    unfold is_image in Himg. rewrite Forall_grid_at2 in Himg. eauto.
Qed.

(** X6: the function returns an 8-bit image unchanged exactly when
    every pixel is darker than 175 or gray (its three channels equal). *)
Theorem remove_watermark_unchanged_iff chroma img :
  is_image img -> concat img <> [] ->
  Z.of_nat (length (concat img)) < 2 ^ 56 ->
  remove_watermark_from_image chroma img = img
  <-> Forall (Forall (fun px => max_channel px < 175
                                \/ channel_spread px = 0)) img.
Proof.
  intros Himg Hne Hsize.
  rewrite (remove_watermark_is_pixel_rule chroma img Himg Hne Hsize),
    grid_map_id_iff, !Forall_grid_at2.
  unfold is_image in Himg. rewrite Forall_grid_at2 in Himg.
  split; intros H y x px Hpx; apply pixel_rule_fixed; eauto.
Qed.

(** X8: the placeholder of a page that failed to render, a white image
    of 11*dpi rows and int(8.5*dpi) columns, goes through the function
    unchanged, for a resolution of at least 1. *)
Theorem blank_page_unchanged chroma dpi :
  (1 <= dpi)%nat ->
  remove_watermark_from_image chroma (blank_img dpi) = blank_img dpi
  /\ concat (blank_img dpi) <> []
  /\ length (blank_img dpi) = (11 * dpi)%nat
  /\ Forall (fun row => length row = (17 * dpi / 2)%nat
                        /\ Forall (fun px => px = (255, 255, 255)) row)
            (blank_img dpi).
Proof.
  intros Hdpi. split_and!.
  - apply remove_watermark_all_white. unfold all_white, blank_img.
    by apply Forall_replicate, Forall_replicate.
  - unfold blank_img.
    assert (exists n m, (11 * dpi = S n /\ 17 * dpi / 2 = S m)%nat)
      as (n & m & -> & ->).
    { exists (11 * dpi - 1)%nat, (17 * dpi / 2 - 1)%nat.
      assert (1 <= 17 * dpi / 2)%nat
        by (apply Nat.div_le_lower_bound; lia).
      lia. }
    discriminate.
  - apply length_replicate.
  - apply Forall_replicate. split; [apply length_replicate|].
    by apply Forall_replicate.
Qed.

(** * Morphology only grows a mask *)

Lemma foldr_max_ge_init v l : v <= foldr Z.max v l.
Proof. induction l as [|a l IH]; simpl; lia. Qed.

Lemma foldr_max_ge_elem v l a : a ∈ l -> a <= foldr Z.max v l.
Proof.
  induction l as [|b l IH]; [by intros ?%not_elem_of_nil|].
  intros [->|Hin]%elem_of_cons; simpl; [lia|].
  specialize (IH Hin). lia.
Qed.

Lemma foldr_min_ge c v l :
  c <= v -> (forall a, a ∈ l -> c <= a) -> c <= foldr Z.min v l.
Proof.
  intros Hv. induction l as [|b l IH]; intros Hl; simpl; [done|].
  assert (c <= b) by (apply Hl; by left).
  assert (c <= foldr Z.min v l) by (apply IH; intros a Ha; apply Hl; by right).
  lia.
Qed.

Lemma at2_imap2 {A B} (f : nat -> nat -> A -> B) (g : grid A) y x :
  at2 (imap (fun y row => imap (f y) row) g) y x = f y x <$> at2 g y x.
Proof.
  unfold at2. rewrite list_lookup_imap.
  destruct (g !! y) as [row|]; [|done]. simpl. apply list_lookup_imap.
Qed.

(** The kernel is symmetric about its anchor. *)
Lemma kernel_offsets_symmetric d :
  d ∈ kernel_offsets -> (- d.1, - d.2) ∈ kernel_offsets.
Proof.
  revert d. apply Forall_forall. by_decision.
Qed.

Lemma at2z_of_nat m y x : at2z m (Z.of_nat y) (Z.of_nat x) = at2 m y x.
Proof.
  unfold at2z.
  destruct (Z.leb_spec 0 (Z.of_nat y)); [|lia].
  destruct (Z.leb_spec 0 (Z.of_nat x)); [|lia].
  simpl. by rewrite !Nat2Z.id.
Qed.

Lemma dilate1_grows m y x v :
  at2 m y x = Some v ->
  exists v', at2 (dilate1 m) y x = Some v' /\ v <= v'.
Proof.
  intros Hv. unfold dilate1.
  rewrite (at2_imap2 (fun y x v => foldr Z.max v (window m y x))), Hv.
  eexists. split; [reflexivity|]. apply foldr_max_ge_init.
Qed.

(** Every cell under the kernel centred at (y, x) has, after a
    dilation, at least the value the mask had at (y, x). *)
Lemma window_dilate1_ge m y x v w :
  at2 m y x = Some v -> w ∈ window (dilate1 m) y x -> v <= w.
Proof.
  intros Hv. unfold window at 1.
  intros ([dy dx] & Hd & Hw)%list_elem_of_omap. simpl in Hw.
  unfold at2z in Hw.
  destruct (Z.leb_spec 0 (Z.of_nat y + dy)) as [Hy|]; [|done].
  destruct (Z.leb_spec 0 (Z.of_nat x + dx)) as [Hx|]; [|done].
  simpl in Hw. unfold dilate1 in Hw.
  rewrite (at2_imap2 (fun y x v => foldr Z.max v (window m y x))) in Hw.
  destruct (at2 m (Z.to_nat (Z.of_nat y + dy)) (Z.to_nat (Z.of_nat x + dx)))
    as [v0|]; [|done].
  injection Hw as <-. apply foldr_max_ge_elem.
  unfold window. apply list_elem_of_omap. exists (- dy, - dx).
  split; [by apply (kernel_offsets_symmetric (dy, dx))|]. simpl.
  rewrite !Z2Nat.id by lia.
  replace (Z.of_nat y + dy + - dy) with (Z.of_nat y) by lia.
  replace (Z.of_nat x + dx + - dx) with (Z.of_nat x) by lia.
  by rewrite at2z_of_nat.
Qed.

Lemma morph_close_grows m y x v :
  at2 m y x = Some v ->
  exists v', at2 (morph_close m) y x = Some v' /\ v <= v'.
Proof.
  intros Hv. destruct (dilate1_grows m y x v Hv) as (d & Hd & Hvd).
  unfold morph_close, erode1.
  rewrite (at2_imap2 (fun y x v => foldr Z.min v (window (dilate1 m) y x))), Hd.
  eexists. split; [reflexivity|]. apply foldr_min_ge; [done|].
  intros w Hw. by apply (window_dilate1_ge m y x).
Qed.

Lemma dilate_grows m n y x v :
  at2 m y x = Some v ->
  exists v', at2 (dilate m n) y x = Some v' /\ v <= v'.
Proof.
  intros Hv. unfold dilate. induction n as [|n (w & Hw & Hvw)]; [by exists v|].
  simpl. destruct (dilate1_grows _ y x w Hw) as (w' & Hw' & Hww').
  exists w'. split; [done|lia].
Qed.

(** X7: the closing and the five dilations of lines 183-186 never
    lower a cell: every cell of the mask they return is at least the
    cell they were given. The final mask is their result on the
    tolerance mask, so it selects every pixel the tolerance mask
    selects, for any target colour. *)
Theorem morphology_only_grows_mask m y x v :
  at2 m y x = Some v ->
  (exists v', at2 (close_and_dilate m) y x = Some v' /\ v <= v')
  /\ (0 < v -> selected (close_and_dilate m) y x)
  /\ (forall img rgb,
        build_mask img rgb = close_and_dilate (tolerance_mask img rgb)).
Proof.
  intros Hv.
  assert (exists v', at2 (close_and_dilate m) y x = Some v' /\ v <= v')
    as (d & Hd & Hvd).
  { unfold close_and_dilate.
    destruct (morph_close_grows m y x v Hv) as (c & Hc & Hvc).
    destruct (dilate_grows _ 5 y x c Hc) as (d & Hd & Hcd).
    exists d. split; [done|lia]. }
  split_and!.
  - by exists d.
  - intros Hpos. exists d. split; [exact Hd|lia].
  - reflexivity.
Qed.

(** * The three steps on a document *)

Lemma fold_left_snoc_fmap {A B} (f : A -> B) (l : list A) (acc : list B) :
  fold_left (fun acc a => acc ++ [f a]) l acc = acc ++ (f <$> l).
Proof.
  revert acc. induction l as [|a l IH]; intros acc; simpl.
  - by rewrite app_nil_r.
  - rewrite IH. by rewrite <- app_assoc.
Qed.

Lemma swap_rb_involutive p : swap_rb (swap_rb p) = p.
Proof. by destruct p as [[c0 c1] c2]. Qed.

Lemma cvt_swap_involutive img : cvt_swap (cvt_swap img) = img.
Proof.
  unfold cvt_swap. rewrite grid_map_compose.
  apply grid_map_id_iff, Forall_grid_at2. intros y x p _.
  apply swap_rb_involutive.
Qed.

Lemma cvt_swap_blank dpi : cvt_swap (blank_img dpi) = blank_img dpi.
Proof.
  unfold cvt_swap, grid_map, blank_img. by rewrite !fmap_replicate.
Qed.

Section StepsFacts.

Context {pixmap : Type}.
Variable imdecode : pixmap -> option image.
Variable pil_frombytes : pixmap -> option image.
Variable chroma : Z -> Z -> Z -> pixel.
Variable dpi : nat.

Lemma rebuild_nonempty image_data :
  image_data <> [] ->
  rebuild_pdf_from_images image_data = Returned (cvt_swap <$> image_data).
Proof.
  intros Hne. unfold rebuild_pdf_from_images.
  rewrite fold_left_snoc_fmap, app_nil_l.
  destruct image_data as [|a [|b l]]; [done|reflexivity|].
  rewrite !fmap_cons. case_decide as Hlen; [reflexivity|].
  cbn [length] in Hlen. lia.
Qed.

Lemma clean_document_open (d : document pixmap) pages :
  pdf_pages d = Some pages ->
  clean_document imdecode pil_frombytes chroma dpi d
  = match pages with
    | [] => Raised
    | _ => Returned (cleaned_pages imdecode pil_frombytes chroma dpi pages)
    end.
Proof.
  intros Hp. unfold clean_document, extract_pdf_to_images. rewrite Hp.
  unfold process_images_in_folder. rewrite !fold_left_snoc_fmap. simpl.
  destruct pages as [|p pages]; [done|].
  rewrite rebuild_nonempty by done.
  unfold cleaned_pages. by rewrite <- !list_fmap_compose.
Qed.

Lemma main_loop_open_prefix (pre rest : list (document pixmap)) output :
  Forall opens pre ->
  (main_loop imdecode pil_frombytes chroma dpi pre output).1 = 0
  /\ main_loop imdecode pil_frombytes chroma dpi (pre ++ rest) output
     = main_loop imdecode pil_frombytes chroma dpi rest
         (main_loop imdecode pil_frombytes chroma dpi pre output).2.
Proof.
  intros Hpre. revert output.
  induction Hpre as [|d pre [pages Hp] _ IH]; intros output; [done|].
  simpl. rewrite (clean_document_open d pages Hp).
  destruct pages; apply IH.
Qed.

Lemma main_loop_all_open (docs : list (document pixmap)) output :
  Forall opens docs -> NoDup (pdf_name <$> docs) ->
  (forall d pages, d ∈ docs -> pdf_pages d = Some pages -> pages <> [] ->
     (main_loop imdecode pil_frombytes chroma dpi docs output).2 !! pdf_name d
     = Some (cleaned_pages imdecode pil_frombytes chroma dpi pages))
  /\ (forall n,
        (forall d pages, d ∈ docs -> pdf_pages d = Some pages ->
                         pages <> [] -> pdf_name d <> n) ->
        (main_loop imdecode pil_frombytes chroma dpi docs output).2 !! n
        = output !! n).
Proof.
  intros Hopen. revert output.
  induction Hopen as [|d docs [pages Hp] _ IH]; intros output Hnd.
  { split; [by intros d pages ?%not_elem_of_nil|done]. }
  rewrite fmap_cons in Hnd. apply NoDup_cons in Hnd as [Hd Hnd].
  simpl. rewrite (clean_document_open d pages Hp).
  assert (Hrest : forall output',
            (forall e ps, e ∈ docs -> pdf_pages e = Some ps -> ps <> [] ->
               (main_loop imdecode pil_frombytes chroma dpi docs output').2
                 !! pdf_name e
               = Some (cleaned_pages imdecode pil_frombytes chroma dpi ps))
            /\ (main_loop imdecode pil_frombytes chroma dpi docs output').2
                 !! pdf_name d
               = output' !! pdf_name d).
  { intros output'. destruct (IH output' Hnd) as [IH1 IH2]. split; [done|].
    apply IH2. intros e ps He _ _ Heq. apply Hd.
    rewrite <- Heq. by apply list_elem_of_fmap_2. }
  split.
  - intros e ps [->|He]%elem_of_cons Hps Hne.
    + rewrite Hp in Hps. injection Hps as <-.
      destruct pages as [|p pages]; [done|].
      destruct (Hrest (<[pdf_name d := cleaned_pages imdecode pil_frombytes
                                         chroma dpi (p :: pages)]> output))
        as [_ ->].
      by rewrite lookup_insert_eq.
    + destruct pages; by apply Hrest.
  - intros n Hn.
    assert (Hn' : forall e ps, e ∈ docs -> pdf_pages e = Some ps ->
                               ps <> [] -> pdf_name e <> n).
    { intros e ps He. apply Hn. by right. }
    destruct pages as [|p pages].
    + destruct (IH output Hnd) as [_ IH2]. by apply IH2.
    + destruct (IH (<[pdf_name d := cleaned_pages imdecode pil_frombytes
                                     chroma dpi (p :: pages)]> output) Hnd)
        as [_ IH2].
      rewrite IH2 by done. apply lookup_insert_ne.
      apply (Hn d (p :: pages)); [by left|done|done].
Qed.

End StepsFacts.

Lemma is_image_cvt_swap img : is_image img -> is_image (cvt_swap img).
Proof.
  apply is_image_grid_map. intros [[c0 c1] c2]. unfold is_pixel, swap_rb. tauto.
Qed.

Lemma pixel_rule_swap_rb px : pixel_rule (swap_rb px) = swap_rb (pixel_rule px).
Proof.
  destruct px as [[c0 c1] c2].
  unfold pixel_rule, swap_rb, max_channel, channel_spread.
  assert (max3 c2 c1 c0 = max3 c0 c1 c2) as -> by (unfold max3; lia).
  assert (min3 c2 c1 c0 = min3 c0 c1 c2) as -> by (unfold min3; lia).
  destruct (max3 c0 c1 c2 <? 175); [done|].
  by destruct (50 <=? max3 c0 c1 c2 - min3 c0 c1 c2).
Qed.

(** X9: without [--debug], a document that opens with at least one
    page is written with as many pages as it has, in its order: page i
    is the i-th page extracted, cleaned and turned to RGB. A page that
    cannot be loaded, rendered or decoded is written as the white
    placeholder, in its own place. *)
Theorem clean_document_keeps_pages {pixmap : Type}
    (imdecode pil_frombytes : pixmap -> option image) chroma dpi
    (d : document pixmap) pages :
  pdf_pages d = Some pages -> pages <> [] ->
  exists pdf,
    clean_document imdecode pil_frombytes chroma dpi d = Returned pdf
    /\ length pdf = length pages
    /\ forall i p,
         pages !! i = Some p ->
         pdf !! i
         = Some (cvt_swap (remove_watermark_from_image chroma
                             (extract_page imdecode pil_frombytes dpi p)))
         /\ ((p = None
              \/ (exists r, p = Some r /\ get_pixmap r = None)
              \/ (exists r pix, p = Some r /\ get_pixmap r = Some pix
                                /\ decode_pixmap imdecode pil_frombytes pix
                                   = None)) ->
             pdf !! i = Some (blank_img dpi)).
Proof.
  intros Hp Hne.
  exists (cleaned_pages imdecode pil_frombytes chroma dpi pages).
  rewrite (clean_document_open imdecode pil_frombytes chroma dpi d pages Hp).
  split_and!.
  - by destruct pages.
  - unfold cleaned_pages. apply length_fmap.
  - intros i p Hi.
    assert (Hpage : cleaned_pages imdecode pil_frombytes chroma dpi pages !! i
                    = Some (cvt_swap (remove_watermark_from_image chroma
                              (extract_page imdecode pil_frombytes dpi p))))
      by (unfold cleaned_pages; by rewrite list_lookup_fmap, Hi).
    split; [exact Hpage|]. intros Hfail. rewrite Hpage. do 2 f_equal.
    assert (extract_page imdecode pil_frombytes dpi p = blank_img dpi) as ->.
    { unfold extract_page, decode_page.
      destruct Hfail as [->|[(r & -> & ->)|(r & pix & -> & -> & ->)]]; done. }
    rewrite remove_watermark_all_white; [apply cvt_swap_blank|].
    unfold all_white, blank_img. by apply Forall_replicate, Forall_replicate.
Qed.

(** X10: a document that opens with no page makes the rebuilding step
    raise ([pil_images[0]] on an empty list); [main] catches it, writes
    nothing for that document and goes on with the next, and a batch of
    such documents alone still ends with exit code 0. *)
Theorem empty_document_is_skipped {pixmap : Type}
    (imdecode pil_frombytes : pixmap -> option image) chroma dpi
    (d : document pixmap) :
  pdf_pages d = Some [] ->
  clean_document imdecode pil_frombytes chroma dpi d = Raised
  /\ (forall rest output,
        main_loop imdecode pil_frombytes chroma dpi (d :: rest) output
        = main_loop imdecode pil_frombytes chroma dpi rest output)
  /\ (forall output,
        main imdecode pil_frombytes chroma dpi [d] output = (0, output)).
Proof.
  intros Hp.
  pose proof (clean_document_open imdecode pil_frombytes chroma dpi d [] Hp)
    as Hraise.
  split_and!; [exact Hraise| |]; intros; simpl; by rewrite Hraise.
Qed.

(** X11: a document that [fitz.open] rejects ends the whole batch:
    [sys.exit(1)] is not caught by [except Exception], so the program
    exits with code 1, the documents after it are never processed, and
    the output directory holds what the documents before it left. *)
Theorem open_failure_ends_batch {pixmap : Type}
    (imdecode pil_frombytes : pixmap -> option image) chroma dpi
    (pre post : list (document pixmap)) (d : document pixmap) output :
  Forall opens pre -> pdf_pages d = None ->
  main imdecode pil_frombytes chroma dpi (pre ++ d :: post) output
  = (1, (main_loop imdecode pil_frombytes chroma dpi pre output).2).
Proof.
  intros Hpre Hd.
  destruct (main_loop_open_prefix imdecode pil_frombytes chroma dpi pre
              (d :: post) output Hpre) as [_ Happ].
  assert (main imdecode pil_frombytes chroma dpi (pre ++ d :: post) output
          = main_loop imdecode pil_frombytes chroma dpi (pre ++ d :: post)
              output) as -> by (by destruct pre).
  rewrite Happ. simpl.
  unfold clean_document, extract_pdf_to_images. by rewrite Hd.
Qed.

(** X12: when every document of a non-empty batch opens, the program
    ends with exit code 0, whether or not any document was written;
    the output directory then holds, under the name of each document
    that has a page, its cleaned pages, and every other name is as it
    was before. *)
Theorem batch_outputs {pixmap : Type}
    (imdecode pil_frombytes : pixmap -> option image) chroma dpi
    (docs : list (document pixmap)) output :
  Forall opens docs -> docs <> [] -> NoDup (pdf_name <$> docs) ->
  (main imdecode pil_frombytes chroma dpi docs output).1 = 0
  /\ (forall d pages,
        d ∈ docs -> pdf_pages d = Some pages -> pages <> [] ->
        (main imdecode pil_frombytes chroma dpi docs output).2 !! pdf_name d
        = Some (cleaned_pages imdecode pil_frombytes chroma dpi pages))
  /\ (forall n,
        (forall d pages, d ∈ docs -> pdf_pages d = Some pages ->
                         pages <> [] -> pdf_name d <> n) ->
        (main imdecode pil_frombytes chroma dpi docs output).2 !! n
        = output !! n).
Proof.
  intros Hopen Hne Hnd.
  assert (main imdecode pil_frombytes chroma dpi docs output
          = main_loop imdecode pil_frombytes chroma dpi docs output) as ->
    by (by destruct docs).
  destruct (main_loop_open_prefix imdecode pil_frombytes chroma dpi docs []
              output Hopen) as [Hcode _].
  destruct (main_loop_all_open imdecode pil_frombytes chroma dpi docs output
              Hopen Hnd) as [Hwritten Hother].
  split_and!; assumption.
Qed.

(** X13: on an 8-bit image the function commutes with the exchange of
    the first and third channels: it makes no difference whether the
    array is in BGR or in RGB order. A page that reached the function
    through the PIL path is therefore written as the function's result
    on the RGB image itself. *)
Theorem remove_watermark_commutes_with_channel_swap chroma img :
  is_image img -> concat img <> [] ->
  Z.of_nat (length (concat img)) < 2 ^ 56 ->
  remove_watermark_from_image chroma (cvt_swap img)
  = cvt_swap (remove_watermark_from_image chroma img)
  /\ cvt_swap (remove_watermark_from_image chroma (cvt_swap img))
     = remove_watermark_from_image chroma img.
Proof.
  intros Himg Hne Hsize.
  assert (Hlen : length (concat (cvt_swap img)) = length (concat img))
    by (apply length_concat_shape, shape_grid_map).
  assert (E : remove_watermark_from_image chroma (cvt_swap img)
              = cvt_swap (remove_watermark_from_image chroma img)).
  { rewrite (remove_watermark_is_pixel_rule chroma img) by assumption.
    rewrite (remove_watermark_is_pixel_rule chroma (cvt_swap img)).
    - unfold cvt_swap. rewrite !grid_map_compose.
      apply grid_map_ext, pixel_rule_swap_rb.
    - by apply is_image_cvt_swap.
    - intros Hnil. rewrite Hnil in Hlen. by destruct (concat img).
    - by rewrite Hlen. }
  split; [exact E|]. by rewrite E, cvt_swap_involutive.
Qed.

(** * The further properties on concrete inputs *)

Lemma remove_watermark_pixelwise_witness :
  is_image sample_image /\ concat sample_image <> []
  /\ Z.of_nat (length (concat sample_image)) < 2 ^ 56
  /\ remove_watermark_from_image chroma_exact sample_image
     = grid_map pixel_rule sample_image.
Proof.
  split_and!; [exact is_image_sample_image|exact sample_image_has_pixel
              |exact sample_image_fits|].
  exact (proj1 (remove_watermark_pixelwise chroma_exact sample_image
                  is_image_sample_image sample_image_has_pixel
                  sample_image_fits)).
Defined.

Lemma remove_watermark_keeps_shape_witness :
  is_image sample_image /\ concat sample_image <> []
  /\ Z.of_nat (length (concat sample_image)) < 2 ^ 56
  /\ shape (remove_watermark_from_image chroma_exact sample_image)
     = shape sample_image.
Proof.
  split_and!; [exact is_image_sample_image|exact sample_image_has_pixel
              |exact sample_image_fits|].
  exact (proj1 (remove_watermark_keeps_shape chroma_exact sample_image
                  is_image_sample_image sample_image_has_pixel
                  sample_image_fits)).
Defined.

Lemma remove_watermark_idempotent_witness :
  is_image sample_image /\ concat sample_image <> []
  /\ Z.of_nat (length (concat sample_image)) < 2 ^ 56
  /\ remove_watermark_from_image chroma_exact
       (remove_watermark_from_image chroma_exact sample_image)
     = remove_watermark_from_image chroma_exact sample_image.
Proof.
  split_and!; [exact is_image_sample_image|exact sample_image_has_pixel
              |exact sample_image_fits|].
  exact (remove_watermark_idempotent chroma_exact sample_image
           is_image_sample_image sample_image_has_pixel sample_image_fits).
Defined.

Lemma blank_page_unchanged_witness :
  (1 <= 1)%nat
  /\ remove_watermark_from_image chroma_exact (blank_img 1) = blank_img 1.
Proof.
  assert (Hdpi : (1 <= 1)%nat) by lia.
  split; [exact Hdpi|].
  exact (proj1 (blank_page_unchanged chroma_exact 1 Hdpi)).
Defined.

Lemma detectable_fallback : detectable (230, 230, 230).
Proof. unfold detectable. lia. Defined.

Lemma remove_watermark_ignores_detected_color_witness :
  is_image sample_image /\ concat sample_image <> []
  /\ Z.of_nat (length (concat sample_image)) < 2 ^ 56
  /\ detectable (230, 230, 230)
  /\ finish (fun _ _ _ => (0, 0, 0)) sample_image
       (build_mask sample_image (230, 230, 230))
     = remove_watermark_trace chroma_exact sample_image.
Proof.
  split_and!; [exact is_image_sample_image|exact sample_image_has_pixel
              |exact sample_image_fits|exact detectable_fallback|].
  exact (remove_watermark_ignores_detected_color chroma_exact
           (fun _ _ _ => (0, 0, 0)) sample_image (230, 230, 230)
           is_image_sample_image sample_image_has_pixel sample_image_fits
           detectable_fallback).
Defined.

Lemma remove_watermark_never_darkens_witness :
  is_image sample_image
  /\ is_image (remove_watermark_from_image chroma_exact sample_image).
Proof.
  split; [exact is_image_sample_image|].
  exact (proj1 (remove_watermark_never_darkens chroma_exact sample_image
                  is_image_sample_image)).
Defined.

Lemma remove_watermark_unchanged_iff_witness :
  is_image sample_image /\ concat sample_image <> []
  /\ Z.of_nat (length (concat sample_image)) < 2 ^ 56
  /\ (remove_watermark_from_image chroma_exact sample_image = sample_image
      <-> Forall (Forall (fun px => max_channel px < 175
                                    \/ channel_spread px = 0)) sample_image).
Proof.
  split_and!; [exact is_image_sample_image|exact sample_image_has_pixel
              |exact sample_image_fits|].
  exact (remove_watermark_unchanged_iff chroma_exact sample_image
           is_image_sample_image sample_image_has_pixel sample_image_fits).
Defined.

Lemma morphology_only_grows_mask_witness :
  at2 sample_mask 1 1 = Some 5
  /\ exists v', at2 (close_and_dilate sample_mask) 1 1 = Some v' /\ 5 <= v'.
Proof.
  split; [reflexivity|].
  exact (proj1 (morphology_only_grows_mask sample_mask 1 1 5 eq_refl)).
Defined.

Lemma clean_document_keeps_pages_witness :
  pdf_pages doc_two_pages = Some [rendered sample_image; None]
  /\ [rendered sample_image; None] <> []
  /\ exists pdf,
       clean_document decode_ok pil_unused chroma_exact 1 doc_two_pages
       = Returned pdf
       /\ length pdf = 2%nat.
Proof.
  split_and!; [reflexivity|discriminate|].
  destruct (clean_document_keeps_pages decode_ok pil_unused chroma_exact 1
              doc_two_pages [rendered sample_image; None] eq_refl
              ltac:(discriminate)) as (pdf & Hpdf & Hlen & _).
  exists pdf. split; [exact Hpdf|exact Hlen].
Defined.

Lemma empty_document_is_skipped_witness :
  pdf_pages doc_no_pages = Some []
  /\ clean_document decode_ok pil_unused chroma_exact 300 doc_no_pages = Raised.
Proof.
  split; [reflexivity|].
  exact (proj1 (empty_document_is_skipped decode_ok pil_unused chroma_exact
                  300 doc_no_pages eq_refl)).
Defined.

Lemma opens_doc_two_pages : opens doc_two_pages.
Proof. eexists. reflexivity. Defined.

Lemma opens_doc_no_pages : opens doc_no_pages.
Proof. eexists. reflexivity. Defined.

Lemma open_failure_ends_batch_witness :
  Forall opens [doc_two_pages] /\ pdf_pages doc_unreadable = None
  /\ main decode_ok pil_unused chroma_exact 1
       ([doc_two_pages] ++ doc_unreadable :: [doc_white]) ∅
     = (1, (main_loop decode_ok pil_unused chroma_exact 1 [doc_two_pages] ∅).2).
Proof.
  assert (Hpre : Forall opens [doc_two_pages])
    by (constructor; [exact opens_doc_two_pages|constructor]).
  split_and!; [exact Hpre|reflexivity|].
  exact (open_failure_ends_batch decode_ok pil_unused chroma_exact 1
           [doc_two_pages] [doc_white] doc_unreadable ∅ Hpre eq_refl).
Defined.

Lemma batch_outputs_witness :
  Forall opens [doc_two_pages; doc_no_pages]
  /\ [doc_two_pages; doc_no_pages] <> []
  /\ NoDup (pdf_name <$> [doc_two_pages; doc_no_pages])
  /\ (main decode_ok pil_unused chroma_exact 1
        [doc_two_pages; doc_no_pages] ∅).1 = 0.
Proof.
  assert (Hopen : Forall opens [doc_two_pages; doc_no_pages]).
  { constructor; [exact opens_doc_two_pages|].
    constructor; [exact opens_doc_no_pages|constructor]. }
  assert (Hnd : NoDup (pdf_name <$> [doc_two_pages; doc_no_pages])).
  { apply (bool_decide_unpack _). vm_compute. exact I. }
  split_and!; [exact Hopen|discriminate|exact Hnd|].
  exact (proj1 (batch_outputs decode_ok pil_unused chroma_exact 1
                  [doc_two_pages; doc_no_pages] ∅ Hopen
                  ltac:(discriminate) Hnd)).
Defined.

Lemma remove_watermark_commutes_with_channel_swap_witness :
  is_image sample_image /\ concat sample_image <> []
  /\ Z.of_nat (length (concat sample_image)) < 2 ^ 56
  /\ remove_watermark_from_image chroma_exact (cvt_swap sample_image)
     = cvt_swap (remove_watermark_from_image chroma_exact sample_image).
Proof.
  split_and!; [exact is_image_sample_image|exact sample_image_has_pixel
              |exact sample_image_fits|].
  exact (proj1 (remove_watermark_commutes_with_channel_swap chroma_exact
                  sample_image is_image_sample_image sample_image_has_pixel
                  sample_image_fits)).
Defined.

(** * The steps with --debug: the names of the page files *)

Lemma ascii_compare_refl a : Ascii.compare a a = Eq.
Proof. unfold Ascii.compare. apply N.compare_refl. Qed.

Lemma string_compare_refl s : String.compare s s = Eq.
Proof.
  induction s as [|a s IH]; simpl; [done|]. by rewrite ascii_compare_refl.
Qed.

Lemma compare_app_prefix p s t :
  String.compare (String.app p s) (String.app p t) = String.compare s t.
Proof.
  induction p as [|a p IH]; simpl; [done|]. by rewrite ascii_compare_refl.
Qed.

(** Two strings of one length that differ are told apart before their
    ends: what follows them does not matter. *)
Lemma compare_app_lt s t x y :
  String.length s = String.length t ->
  String.compare s t = Lt ->
  String.compare (String.app s x) (String.app t y) = Lt.
Proof.
  revert t. induction s as [|a s IH]; intros [|b t] Hlen Hlt;
    simpl in *; try done.
  destruct (Ascii.compare a b); [|done|done].
  apply IH; [lia|done].
Qed.

Lemma str_lt_le a b : str_lt a b -> String.le a b.
Proof. unfold str_lt, String.le, String.leb. by intros ->. Qed.

Lemma str_lt_irrefl a : ~ str_lt a a.
Proof. unfold str_lt. by rewrite string_compare_refl. Qed.

Lemma digits3_sorted : StronglySorted str_lt (digits3 <$> seq 0 1000).
Proof. apply (bool_decide_unpack _). vm_compute. exact I. Qed.

Lemma page_name_digits3_all :
  Forall (fun n => page_name n
                   = String.app "page_" (String.app (digits3 n) ".png")
                   /\ is_page_file (page_name n) = true)
         (seq 0 1000).
Proof. apply (bool_decide_unpack _). vm_compute. exact I. Qed.

Lemma page_name_four_digits_all :
  Forall (fun n => page_name n
                   = String.app "page_"
                       (String.app (digits3 (n / 10))
                          (String (ascii_of_nat (48 + n mod 10)) ".png")))
         (seq 1000 (9 * 1000)).
Proof. apply (bool_decide_unpack _). vm_compute. exact I. Qed.

Lemma page_name_digits3 n :
  (n < 1000)%nat ->
  page_name n = String.app "page_" (String.app (digits3 n) ".png").
Proof.
  intros Hn. pose proof page_name_digits3_all as H.
  rewrite Forall_forall in H. apply H, elem_of_seq. lia.
Qed.

Lemma is_page_file_page_name n :
  (n < 1000)%nat -> is_page_file (page_name n) = true.
Proof.
  intros Hn. pose proof page_name_digits3_all as H.
  rewrite Forall_forall in H. apply H, elem_of_seq. lia.
Qed.

Lemma digits3_lt a b : (a < b < 1000)%nat -> str_lt (digits3 a) (digits3 b).
Proof.
  intros Hab.
  apply (StronglySorted_lookup str_lt (digits3 <$> seq 0 1000) a b);
    [apply digits3_sorted|lia| |];
    rewrite list_lookup_fmap, lookup_seq_lt by lia; done.
Qed.

Lemma page_name_lt a b :
  (a < b < 1000)%nat -> str_lt (page_name a) (page_name b).
Proof.
  intros Hab. unfold str_lt.
  rewrite !page_name_digits3 by lia. rewrite compare_app_prefix.
  apply compare_app_lt; [done|]. by apply digits3_lt.
Qed.

Lemma page_name_inj a b :
  (a < 1000)%nat -> (b < 1000)%nat -> page_name a = page_name b -> a = b.
Proof.
  intros Ha Hb Heq.
  destruct (Nat.lt_total a b) as [Hlt|[->|Hlt]]; [|done|].
  - destruct (str_lt_irrefl (page_name b)). rewrite <- Heq at 1.
    apply page_name_lt. lia.
  - destruct (str_lt_irrefl (page_name a)). rewrite Heq at 1.
    apply page_name_lt. lia.
Qed.

(** X14: the page files come back from [sorted(glob)] in page order as
    long as the page numbers stay below 1000; a number of four digits
    sorts before every number of three digits that exceeds its first
    three digits, so from page 1000 on the order of the pages is lost
    (page 1000 comes before page 101). *)
Theorem page_names_order a b :
  ((1 <= a < b)%nat -> (b <= 999)%nat ->
   str_lt (page_name a) (page_name b))
  /\ ((100 <= a <= 999)%nat -> (1000 <= b < 10 * 1000)%nat ->
      (b / 10 < a)%nat ->
      str_lt (page_name b) (page_name a))
  /\ ((a <= 999)%nat -> is_page_file (page_name a) = true).
Proof.
  split_and!.
  - intros Hab Hb. apply page_name_lt. lia.
  - intros Ha Hb Hba. unfold str_lt.
    rewrite (page_name_digits3 a) by lia.
    pose proof page_name_four_digits_all as H4. rewrite Forall_forall in H4.
    rewrite (H4 b) by (apply elem_of_seq; lia).
    rewrite compare_app_prefix. apply compare_app_lt; [done|].
    apply digits3_lt. lia.
  - intros Ha. apply is_page_file_page_name. lia.
Qed.

(** * The steps with --debug: the folders *)

#[local] Instance name_le_trans : Transitive name_le.
Proof. intros a b c. unfold name_le. apply transitivity. Qed.

#[local] Instance name_le_total : Total name_le.
Proof. intros a b. unfold name_le. apply (total String.le). Qed.

(** The listing holds the page files of the folder, each once, sorted
    by name. *)
Lemma elem_of_page_listing dir name img :
  (name, img) ∈ page_listing dir
  <-> dir !! name = Some img /\ is_page_file name = true.
Proof.
  unfold page_listing. rewrite merge_sort_Permutation, list_elem_of_filter.
  rewrite elem_of_map_to_list. simpl. tauto.
Qed.

Lemma NoDup_page_listing dir : NoDup (page_listing dir).
Proof.
  unfold page_listing. rewrite merge_sort_Permutation.
  apply NoDup_filter, NoDup_map_to_list.
Qed.

Lemma StronglySorted_page_listing dir :
  StronglySorted name_le (page_listing dir).
Proof. unfold page_listing. apply StronglySorted_merge_sort; apply _. Qed.

Lemma StronglySorted_fmap_seq {A} (R : relation A) (f : nat -> A) a n :
  (forall i j, (a <= i < j)%nat -> (j < a + n)%nat -> R (f i) (f j)) ->
  StronglySorted R (f <$> seq a n).
Proof.
  revert a. induction n as [|n IH]; intros a HR; [constructor|].
  simpl. constructor.
  - apply IH. intros i j Hij Hj. apply HR; lia.
  - apply Forall_fmap, Forall_forall. intros j Hj%elem_of_seq.
    apply HR; lia.
Qed.

Lemma StronglySorted_irrefl_NoDup {A} (R : relation A) l :
  (forall x, ~ R x x) -> StronglySorted R l -> NoDup l.
Proof.
  intros Hirr. induction 1 as [|x l Hl IH Hx]; constructor; [|done].
  intros Hin. rewrite Forall_forall in Hx. by apply (Hirr x), Hx.
Qed.

Lemma elem_of_numbered_files dir ks e :
  e ∈ numbered_files dir ks
  <-> exists k, k ∈ ks /\ e.1 = page_name k /\ dir !! page_name k = Some e.2.
Proof.
  unfold numbered_files. rewrite list_elem_of_omap. split.
  - intros (k & Hk & He). exists k. split; [done|].
    destruct (dir !! page_name k) as [img|]; [|done].
    injection He as <-. done.
  - intros (k & Hk & He1 & He2). exists k. split; [done|].
    rewrite He2. simpl. destruct e as [name img]. simpl in *. by subst.
Qed.

Lemma StronglySorted_numbered_files dir ks :
  StronglySorted str_lt (page_name <$> ks) ->
  StronglySorted (fun e1 e2 : string * image => str_lt e1.1 e2.1)
                 (numbered_files dir ks).
Proof.
  induction ks as [|k ks IH]; [constructor|].
  rewrite fmap_cons. intros [Hk Hks]%StronglySorted_cons.
  unfold numbered_files. simpl. fold (numbered_files dir ks).
  destruct (dir !! page_name k) as [img|]; simpl; [|by apply IH].
  constructor; [by apply IH|].
  apply Forall_forall. intros e (k' & Hk' & He & _)%elem_of_numbered_files.
  simpl. rewrite He. rewrite Forall_forall in Hk.
  apply Hk. by apply list_elem_of_fmap_2.
Qed.

Lemma page_names_sorted : StronglySorted str_lt (page_name <$> seq 1 999).
Proof.
  apply StronglySorted_fmap_seq. intros i j Hij Hj. apply page_name_lt. lia.
Qed.

(** [sorted(glob)] on a folder whose page files carry the numbers of a
    list with ascending names: its files by number. *)
Lemma page_listing_numbered_gen dir ks :
  StronglySorted str_lt (page_name <$> ks) ->
  (forall k, k ∈ ks -> is_page_file (page_name k) = true) ->
  (forall name, is_Some (dir !! name) -> is_page_file name = true ->
                exists k, k ∈ ks /\ name = page_name k) ->
  page_listing dir = numbered_files dir ks.
Proof.
  intros Hks Hpage Hwn.
  pose proof (StronglySorted_numbered_files dir ks Hks) as Hsorted.
  apply (StronglySorted_unique_strong name_le).
  - intros [n1 i1] [n2 i2] [H1 _]%elem_of_page_listing
      (k & _ & Hk & H2)%elem_of_numbered_files Hle1 Hle2.
    unfold name_le in Hle1, Hle2. cbn [fst snd] in *.
    assert (n1 = n2) as -> by (by apply (anti_symm String.le)).
    rewrite <- Hk, H1 in H2. by injection H2 as ->.
  - apply StronglySorted_page_listing.
  - eapply StronglySorted_weaken; [|exact Hsorted].
    intros e1 e2 _ _. apply str_lt_le.
  - apply NoDup_Permutation.
    + apply NoDup_page_listing.
    + eapply StronglySorted_irrefl_NoDup; [|exact Hsorted].
      intros e. apply str_lt_irrefl.
    + intros [name img]. rewrite elem_of_page_listing, elem_of_numbered_files.
      cbn [fst snd]. split.
      * intros [Hl Hp]. destruct (Hwn name) as (k & Hk & ->); [by eexists|done|].
        exists k. done.
      * intros (k & Hk & -> & Hl). split; [done|by apply Hpage].
Qed.

Lemma page_listing_numbered dir :
  well_named dir -> page_listing dir = numbered_files dir (seq 1 999).
Proof.
  intros Hwn. apply page_listing_numbered_gen.
  - apply page_names_sorted.
  - intros k Hk%elem_of_seq. apply is_page_file_page_name. lia.
  - intros name Hl Hp. destruct (Hwn name Hl Hp) as (k & Hk & ->).
    exists k. split; [apply elem_of_seq; lia|done].
Qed.

Lemma omap_ext_in {A B} (f g : A -> option B) (l : list A) :
  (forall x, x ∈ l -> f x = g x) -> omap f l = omap g l.
Proof.
  induction l as [|a l IH]; intros Hfg; [done|]. csimpl.
  rewrite (Hfg a) by (by left). rewrite IH; [done|].
  intros x Hx. apply Hfg. by right.
Qed.

(** Reading a list through the numbers from a on, past its end. *)
Lemma omap_seq_lookup {A B} (g : A -> option B) (l : list A) a n :
  (length l <= n)%nat ->
  omap (fun k => l !! (k - a)%nat ≫= g) (seq a n) = omap g l.
Proof.
  revert a n. induction l as [|x l IH]; intros a n Hn.
  - simpl. induction (seq a n) as [|k ks IHk]; [done|]. simpl. exact IHk.
  - destruct n as [|n]; [simpl in Hn; lia|]. simpl in Hn.
    change (seq a (S n)) with (a :: seq (S a) n). csimpl.
    rewrite Nat.sub_diag. csimpl.
    rewrite <- (IH (S a) n) by lia.
    assert (omap (fun k => (x :: l) !! (k - a)%nat ≫= g) (seq (S a) n)
            = omap (fun k => l !! (k - S a)%nat ≫= g) (seq (S a) n)) as ->; [|done].
    apply omap_ext_in. intros k Hk%elem_of_seq.
    replace (k - a)%nat with (S (k - S a)) by lia. done.
Qed.

Lemma fold_insert_lookup_in {A B} (f : A -> B) (l : list (string * A))
    (m0 : gmap string B) k a :
  (forall a', (k, a') ∈ l -> a' = a) -> (k, a) ∈ l ->
  fold_left (fun out (e : string * A) => <[e.1 := f e.2]> out) l m0 !! k
  = Some (f a).
Proof.
  induction l as [|e l IH] using rev_ind; intros Hfun Hin.
  { by apply not_elem_of_nil in Hin. }
  rewrite fold_left_app. simpl.
  destruct (decide (e.1 = k)) as [He|He].
  - rewrite He, lookup_insert_eq. f_equal. f_equal.
    apply Hfun. apply elem_of_app. right. apply list_elem_of_singleton.
    destruct e. simpl in *. by subst.
  - rewrite lookup_insert_ne by done. apply IH.
    + intros a' Ha'. apply Hfun, elem_of_app. by left.
    + apply elem_of_app in Hin as [Hin|Hin%list_elem_of_singleton]; [done|].
      subst e. by destruct He.
Qed.

Lemma fold_insert_lookup_notin {A B} (f : A -> B) (l : list (string * A))
    (m0 : gmap string B) k :
  (forall a, (k, a) ∉ l) ->
  fold_left (fun out (e : string * A) => <[e.1 := f e.2]> out) l m0 !! k
  = m0 !! k.
Proof.
  induction l as [|e l IH] using rev_ind; intros Hnot; [done|].
  rewrite fold_left_app. simpl.
  rewrite lookup_insert_ne.
  - apply IH. intros a Ha. apply (Hnot a), elem_of_app. by left.
  - intros He. apply (Hnot e.2), elem_of_app. right.
    apply list_elem_of_singleton. destruct e. simpl in *. by subst.
Qed.

Section DebugFacts.

Context {pixmap : Type}.
Variable imdecode : pixmap -> option image.
Variable pil_frombytes : pixmap -> option image.
Variable chroma : Z -> Z -> Z -> pixel.

Lemma write_page_files_snoc pages p :
  write_page_files imdecode pil_frombytes (pages ++ [p])
  = match decode_page imdecode pil_frombytes p with
    | Some img => <[page_name (length pages + 1) := img]>
                    (write_page_files imdecode pil_frombytes pages)
    | None => write_page_files imdecode pil_frombytes pages
    end.
Proof.
  unfold write_page_files, enumerate.
  rewrite imap_app, fold_left_app. simpl. by rewrite Nat.add_0_r.
Qed.

(** The files the extraction leaves carry the numbers of the pages. *)
Lemma write_page_files_named pages name :
  is_Some (write_page_files imdecode pil_frombytes pages !! name) ->
  exists k, (1 <= k <= length pages)%nat /\ name = page_name k.
Proof.
  induction pages as [|p pages IH] using rev_ind.
  { intros [img Himg]. unfold write_page_files in Himg. simpl in Himg.
    by rewrite lookup_empty in Himg. }
  rewrite write_page_files_snoc, length_app. simpl.
  assert (Hold : is_Some (write_page_files imdecode pil_frombytes pages !! name)
                 -> exists k, (1 <= k <= length pages + 1)%nat
                              /\ name = page_name k).
  { intros (k & Hk & ->)%IH. exists k. split; [lia|done]. }
  destruct (decode_page imdecode pil_frombytes p) as [img|]; [|done].
  destruct (decide (name = page_name (length pages + 1))) as [->|Hne].
  - intros _. exists (length pages + 1)%nat. split; [lia|done].
  - by rewrite lookup_insert_ne.
Qed.

(** The file of page k holds the array of the k-th page, when it
    decodes. *)
Lemma write_page_files_numbered pages k :
  (length pages <= 999)%nat -> (1 <= k <= 999)%nat ->
  write_page_files imdecode pil_frombytes pages !! page_name k
  = pages !! (k - 1)%nat ≫= decode_page imdecode pil_frombytes.
Proof.
  intros Hlen Hk. induction pages as [|p pages IH] using rev_ind.
  { unfold write_page_files. simpl. by rewrite lookup_empty. }
  rewrite length_app in Hlen. simpl in Hlen.
  rewrite write_page_files_snoc.
  destruct (decide (k = length pages + 1)%nat) as [->|Hne].
  - replace (length pages + 1 - 1)%nat with (length pages) by lia.
    rewrite list_lookup_middle by done. cbn [mbind option_bind].
    destruct (decode_page imdecode pil_frombytes p) as [img|] eqn:Hp.
    + by rewrite lookup_insert_eq.
    + destruct (write_page_files imdecode pil_frombytes pages
                  !! page_name (length pages + 1)) as [img|] eqn:Hold; [|done].
      destruct (write_page_files_named pages (page_name (length pages + 1)))
        as (k' & Hk' & Heq); [by eexists|].
      apply page_name_inj in Heq; lia.
  - assert (write_page_files imdecode pil_frombytes pages !! page_name k
            = (pages ++ [p]) !! (k - 1)%nat
              ≫= decode_page imdecode pil_frombytes) as Hk'.
    { rewrite IH by lia.
      destruct (decide (k - 1 < length pages)%nat).
      - by rewrite lookup_app_l by lia.
      - rewrite !lookup_ge_None_2; [done| |lia].
        rewrite length_app. simpl. lia. }
    destruct (decode_page imdecode pil_frombytes p) as [img|]; [|done].
    rewrite lookup_insert_ne; [done|].
    intros Heq%page_name_inj; lia.
Qed.

(** What the processing step leaves in the output folder: the cleaned
    image under the name of every page file of the input folder, and
    what was there before under every other name. *)
Lemma process_debug_lookup input_dir cleaned name :
  process_images_in_folder_debug chroma input_dir cleaned !! name
  = match input_dir !! name with
    | Some img =>
        if is_page_file name
        then Some (remove_watermark_from_image chroma img)
        else cleaned !! name
    | None => cleaned !! name
    end.
Proof.
  unfold process_images_in_folder_debug.
  destruct (input_dir !! name) as [img|] eqn:Hl.
  - destruct (is_page_file name) eqn:Hp.
    + apply (fold_insert_lookup_in (remove_watermark_from_image chroma)).
      * intros img' [Hl' _]%elem_of_page_listing. congruence.
      * by apply elem_of_page_listing.
    + apply fold_insert_lookup_notin.
      intros img' [_ Hp']%elem_of_page_listing. congruence.
  - apply fold_insert_lookup_notin.
    intros img' [Hl' _]%elem_of_page_listing. congruence.
Qed.

Lemma snd_numbered_files dir ks :
  (numbered_files dir ks).*2 = omap (fun k => dir !! page_name k) ks.
Proof.
  unfold numbered_files. induction ks as [|k ks IH]; [done|]. csimpl.
  destruct (dir !! page_name k); csimpl; by rewrite IH.
Qed.

(** The pages the rebuilding step writes from a well-named folder: its
    files numbered 1 to 999, by number, in RGB. *)
Lemma rebuild_debug_numbered dir :
  well_named dir ->
  rebuild_pdf_from_images_debug dir
  = match omap (fun k => dir !! page_name k) (seq 1 999) with
    | [] => None
    | imgs => Some (cvt_swap <$> imgs)
    end.
Proof.
  intros Hwn. unfold rebuild_pdf_from_images_debug.
  rewrite (page_listing_numbered dir Hwn), <- snd_numbered_files.
  generalize (numbered_files dir (seq 1 999)). intros files.
  assert ((fun e : string * image => cvt_swap e.2) <$> files
          = cvt_swap <$> files.*2) as ->.
  { by rewrite <- list_fmap_compose. }
  generalize (files.*2). intros imgs.
  destruct imgs as [|img1 [|img2 imgs]]; [done|done|].
  rewrite !fmap_cons. case_decide as Hlen; [reflexivity|].
  cbn [length] in Hlen. lia.
Qed.

End DebugFacts.

Lemma omap_fmap_compose {A B C} (g : A -> option B) (f : B -> C) (l : list A) :
  omap (fun a => f <$> g a) l = f <$> omap g l.
Proof.
  induction l as [|a l IH]; [done|]. csimpl.
  destruct (g a); csimpl; by rewrite IH.
Qed.

Lemma omap_seq_lookup_id {A} (l : list A) a n :
  (length l <= n)%nat -> omap (fun k => l !! (k - a)%nat) (seq a n) = l.
Proof.
  intros Hn. transitivity (omap Some l).
  - rewrite <- (omap_seq_lookup Some l a n Hn). apply omap_ext_in.
    intros k _. by destruct (l !! (k - a)%nat).
  - induction l as [|x l IH]; [done|]. csimpl. f_equal. apply IH.
    simpl in Hn. lia.
Qed.

Lemma no_page_files_well_named dir : no_page_files dir -> well_named dir.
Proof.
  intros Hno name [img Himg] Hp. rewrite (Hno name Hp) in Himg. done.
Qed.

Section DebugDocument.

Context {pixmap : Type}.
Variable imdecode : pixmap -> option image.
Variable pil_frombytes : pixmap -> option image.
Variable chroma : Z -> Z -> Z -> pixel.

(** One document with --debug: the cleaned folder afterwards, and the
    pages of the PDF, which are the files of that folder. *)
Lemma debug_document_spec (d : document pixmap) pages w :
  pdf_pages d = Some pages -> (length pages <= 999)%nat ->
  well_named (images_cleaned w) ->
  exists w',
    debug_document imdecode pil_frombytes chroma d w = Returned w'
    /\ (forall k, (1 <= k <= 999)%nat ->
          images_cleaned w' !! page_name k
          = cleaned_file imdecode pil_frombytes chroma pages
              (images_cleaned w) k)
    /\ well_named (images_cleaned w')
    /\ output_dir w'
       = match omap (cleaned_file imdecode pil_frombytes chroma pages
                       (images_cleaned w)) (seq 1 999) with
         | [] => output_dir w
         | imgs => <[pdf_name d := cvt_swap <$> imgs]> (output_dir w)
         end.
Proof.
  intros Hp Hlen Hwn.
  unfold debug_document, extract_pdf_to_images_debug. rewrite Hp.
  set (extracted := write_page_files imdecode pil_frombytes pages).
  set (cleaned := process_images_in_folder_debug chroma extracted
                    (images_cleaned w)).
  assert (Hfile : forall k, (1 <= k <= 999)%nat ->
            cleaned !! page_name k
            = cleaned_file imdecode pil_frombytes chroma pages
                (images_cleaned w) k).
  { intros k Hk. unfold cleaned, cleaned_file.
    rewrite process_debug_lookup. unfold extracted.
    rewrite write_page_files_numbered by done.
    rewrite is_page_file_page_name by lia.
    by destruct (pages !! (k - 1)%nat
                 ≫= decode_page imdecode pil_frombytes). }
  assert (Hwn' : well_named cleaned).
  { intros name [img Himg] Hpf. unfold cleaned in Himg.
    rewrite process_debug_lookup, Hpf in Himg.
    destruct (extracted !! name) as [img0|] eqn:Hex.
    - destruct (write_page_files_named imdecode pil_frombytes pages name)
        as (k & Hk & ->); [by eexists|].
      exists k. split; [lia|done].
    - apply Hwn; [by eexists|done]. }
  eexists. split; [reflexivity|]. cbn [images_cleaned output_dir].
  split; [exact Hfile|]. split; [exact Hwn'|].
  rewrite (rebuild_debug_numbered cleaned Hwn').
  assert (omap (fun k => cleaned !! page_name k) (seq 1 999)
          = omap (cleaned_file imdecode pil_frombytes chroma pages
                    (images_cleaned w)) (seq 1 999)) as ->.
  { apply omap_ext_in. intros k Hk%elem_of_seq. apply Hfile. lia. }
  by destruct (omap _ _).
Qed.

(** With no page file left in the cleaned folder, the files are the
    cleaned pages that decode. *)
Lemma cleaned_files_fresh pages before :
  (length pages <= 999)%nat -> no_page_files before ->
  omap (cleaned_file imdecode pil_frombytes chroma pages before) (seq 1 999)
  = remove_watermark_from_image chroma
    <$> omap (decode_page imdecode pil_frombytes) pages.
Proof.
  intros Hlen Hno. rewrite <- omap_fmap_compose.
  rewrite <- (omap_seq_lookup _ pages 1 999 Hlen).
  apply omap_ext_in. intros k Hk%elem_of_seq. unfold cleaned_file.
  rewrite (Hno (page_name k)) by (apply is_page_file_page_name; lia).
  destruct (pages !! (k - 1)%nat) as [p|]; [|done]. csimpl.
  by destruct (decode_page imdecode pil_frombytes p).
Qed.

Lemma omap_decodes pages dpi :
  Forall (decodes imdecode pil_frombytes) pages ->
  omap (decode_page imdecode pil_frombytes) pages
  = extract_page imdecode pil_frombytes dpi <$> pages.
Proof.
  induction 1 as [|p pages [img Hp] _ IH]; [done|]. csimpl.
  unfold extract_page at 1. rewrite Hp. csimpl. by rewrite IH.
Qed.

(** With every page decoding, the file of page k is the k-th cleaned
    page, and past the last page what the folder held before. *)
Lemma cleaned_file_decodes pages before dpi k :
  Forall (decodes imdecode pil_frombytes) pages ->
  cleaned_file imdecode pil_frombytes chroma pages before k
  = match ((fun p => remove_watermark_from_image chroma
                       (extract_page imdecode pil_frombytes dpi p))
           <$> pages) !! (k - 1)%nat with
    | Some img => Some img
    | None => before !! page_name k
    end.
Proof.
  intros Hall. unfold cleaned_file. rewrite list_lookup_fmap.
  destruct (pages !! (k - 1)%nat) as [p|] eqn:Hk; [|done]. csimpl.
  rewrite Forall_forall in Hall.
  destruct (Hall p) as [img Hp]; [by eapply list_elem_of_lookup_2|].
  unfold extract_page. by rewrite Hp.
Qed.

(** X15: with --debug a page that fails to render or decode is left out
    of the PDF: a first document of at most 999 pages gets the cleaned
    pages that decode, in order, and no PDF when none does. *)
Theorem debug_drops_failed_pages (d : document pixmap) pages w :
  pdf_pages d = Some pages -> (length pages <= 999)%nat ->
  no_page_files (images_cleaned w) ->
  exists w',
    debug_document imdecode pil_frombytes chroma d w = Returned w'
    /\ output_dir w'
       = match omap (decode_page imdecode pil_frombytes) pages with
         | [] => output_dir w
         | imgs =>
             <[pdf_name d :=
                 (fun img => cvt_swap (remove_watermark_from_image chroma img))
                 <$> imgs]> (output_dir w)
         end.
Proof.
  intros Hp Hlen Hno.
  destruct (debug_document_spec d pages w Hp Hlen
              (no_page_files_well_named _ Hno)) as (w' & Hw' & _ & _ & Hout).
  exists w'. split; [exact Hw'|]. rewrite Hout.
  rewrite (cleaned_files_fresh pages _ Hlen Hno).
  destruct (omap (decode_page imdecode pil_frombytes) pages)
    as [|img imgs]; [done|].
  rewrite fmap_cons. cbv beta iota. f_equal.
  by rewrite !fmap_cons, <- list_fmap_compose.
Qed.

(** X16: when every page decodes, a first document of 1 to 999 pages
    gets the same PDF with --debug as without. *)
Theorem debug_agrees_with_plain (d : document pixmap) pages w dpi :
  pdf_pages d = Some pages -> pages <> [] -> (length pages <= 999)%nat ->
  Forall (decodes imdecode pil_frombytes) pages ->
  no_page_files (images_cleaned w) ->
  exists pdf w',
    clean_document imdecode pil_frombytes chroma dpi d = Returned pdf
    /\ debug_document imdecode pil_frombytes chroma d w = Returned w'
    /\ output_dir w' = <[pdf_name d := pdf]> (output_dir w).
Proof.
  intros Hp Hne Hlen Hall Hno.
  destruct (debug_document_spec d pages w Hp Hlen
              (no_page_files_well_named _ Hno)) as (w' & Hw' & _ & _ & Hout).
  exists (cleaned_pages imdecode pil_frombytes chroma dpi pages), w'.
  split; [|split; [exact Hw'|]].
  - rewrite (clean_document_open _ _ _ _ d pages Hp).
    by destruct pages.
  - rewrite Hout, (cleaned_files_fresh pages _ Hlen Hno).
    rewrite (omap_decodes pages dpi Hall).
    destruct pages as [|p pages]; [done|].
    rewrite !fmap_cons. cbv beta iota. f_equal.
    unfold cleaned_pages. by rewrite !fmap_cons, <- !list_fmap_compose.
Qed.

(** X17: the cleaned folder is never emptied. With --debug, the PDF of
    a document that follows another one holds its own cleaned pages and
    then the pages of the earlier document past its own last page. *)
Theorem debug_keeps_stale_pages (dA dB : document pixmap) pagesA pagesB w dpi :
  pdf_pages dA = Some pagesA -> pdf_pages dB = Some pagesB ->
  (length pagesA <= 999)%nat -> (length pagesB <= 999)%nat ->
  Forall (decodes imdecode pil_frombytes) pagesA ->
  Forall (decodes imdecode pil_frombytes) pagesB ->
  (0 < length pagesA + length pagesB)%nat ->
  no_page_files (images_cleaned w) ->
  output_dir (main_loop_debug imdecode pil_frombytes chroma [dA; dB] w).2
    !! pdf_name dB
  = Some (cleaned_pages imdecode pil_frombytes chroma dpi pagesB
          ++ drop (length pagesB)
               (cleaned_pages imdecode pil_frombytes chroma dpi pagesA)).
Proof.
  intros HpA HpB HlenA HlenB HallA HallB Hpos Hno.
  destruct (debug_document_spec dA pagesA w HpA HlenA
              (no_page_files_well_named _ Hno))
    as (wA & HwA & HfileA & HwnA & _).
  destruct (debug_document_spec dB pagesB wA HpB HlenB HwnA)
    as (wB & HwB & _ & _ & Hout).
  cbn [main_loop_debug]. rewrite HwA, HwB. cbn [snd]. rewrite Hout.
  set (cleanA := (fun p => remove_watermark_from_image chroma
                             (extract_page imdecode pil_frombytes dpi p))
                 <$> pagesA).
  set (cleanB := (fun p => remove_watermark_from_image chroma
                             (extract_page imdecode pil_frombytes dpi p))
                 <$> pagesB).
  assert (omap (cleaned_file imdecode pil_frombytes chroma pagesB
                  (images_cleaned wA)) (seq 1 999)
          = cleanB ++ drop (length pagesB) cleanA) as ->.
  { rewrite <- (omap_seq_lookup_id (cleanB ++ drop (length pagesB) cleanA)
                  1 999).
    2:{ rewrite length_app, length_drop. unfold cleanA, cleanB.
        rewrite !length_fmap. lia. }
    apply omap_ext_in. intros k Hk%elem_of_seq.
    rewrite (cleaned_file_decodes pagesB _ dpi k HallB). fold cleanB.
    assert (HlB : length cleanB = length pagesB)
      by (unfold cleanB; apply length_fmap).
    destruct (cleanB !! (k - 1)%nat) as [img|] eqn:HkB.
    - by rewrite (lookup_app_l_Some _ _ _ _ HkB).
    - apply lookup_ge_None_1 in HkB.
      rewrite lookup_app_r by done. rewrite lookup_drop.
      replace (length pagesB + (k - 1 - length cleanB))%nat
        with (k - 1)%nat by lia.
      rewrite HfileA by lia.
      rewrite (cleaned_file_decodes pagesA _ dpi k HallA). fold cleanA.
      destruct (cleanA !! (k - 1)%nat); [done|].
      apply Hno, is_page_file_page_name. lia. }
  assert (cvt_swap <$> (cleanB ++ drop (length pagesB) cleanA)
          = cleaned_pages imdecode pil_frombytes chroma dpi pagesB
            ++ drop (length pagesB)
                 (cleaned_pages imdecode pil_frombytes chroma dpi pagesA))
    as Hpdf.
  { rewrite fmap_app, fmap_drop. unfold cleanA, cleanB, cleaned_pages.
    by rewrite <- !list_fmap_compose. }
  destruct (cleanB ++ drop (length pagesB) cleanA) as [|img imgs] eqn:Hc.
  - apply (f_equal length) in Hc. rewrite length_app, length_drop in Hc.
    unfold cleanA, cleanB in Hc. rewrite !length_fmap in Hc.
    simpl in Hc. lia.
  - by rewrite lookup_insert_eq, Hpdf.
Qed.

End DebugDocument.

(** * The steps with --debug on concrete documents *)

Lemma no_page_files_empty : no_page_files (images_cleaned empty_workspace).
Proof. intros name _. apply lookup_empty. Defined.

Lemma decodes_rendered img : decodes decode_ok pil_unused (rendered img).
Proof. exists img. reflexivity. Defined.

Lemma page_names_order_witness :
  str_lt (page_name 9) (page_name 10)
  /\ str_lt (page_name 1000) (page_name 101)
  /\ is_page_file (page_name 7) = true.
Proof.
  split_and!.
  - apply (proj1 (page_names_order 9 10)); lia.
  - apply (proj1 (proj2 (page_names_order 101 1000))); [lia|lia|].
    apply Nat.Div0.div_lt_upper_bound. lia.
  - apply (proj2 (proj2 (page_names_order 7 0))). lia.
Defined.

Lemma debug_drops_failed_pages_witness :
  pdf_pages doc_two_pages = Some [rendered sample_image; None]
  /\ (length [rendered sample_image; None] <= 999)%nat
  /\ no_page_files (images_cleaned empty_workspace)
  /\ exists w',
       debug_document decode_ok pil_unused chroma_exact doc_two_pages
         empty_workspace = Returned w'
       /\ output_dir w'
          = <[pdf_name doc_two_pages :=
                [cvt_swap (remove_watermark_from_image chroma_exact
                             sample_image)]]> (output_dir empty_workspace).
Proof.
  assert (Hlen : (length [rendered sample_image; None] <= 999)%nat)
    by (cbn [length]; lia).
  split_and!; [reflexivity|exact Hlen|exact no_page_files_empty|].
  exact (debug_drops_failed_pages decode_ok pil_unused chroma_exact
           doc_two_pages [rendered sample_image; None] empty_workspace
           eq_refl Hlen no_page_files_empty).
Defined.

Lemma debug_agrees_with_plain_witness :
  pdf_pages doc_long = Some [rendered white_1x1; rendered sample_image]
  /\ [rendered white_1x1; rendered sample_image] <> []
  /\ (length [rendered white_1x1; rendered sample_image] <= 999)%nat
  /\ Forall (decodes decode_ok pil_unused)
       [rendered white_1x1; rendered sample_image]
  /\ no_page_files (images_cleaned empty_workspace)
  /\ exists pdf w',
       clean_document decode_ok pil_unused chroma_exact 1 doc_long
       = Returned pdf
       /\ debug_document decode_ok pil_unused chroma_exact doc_long
            empty_workspace = Returned w'
       /\ output_dir w' = <[pdf_name doc_long := pdf]> (output_dir empty_workspace).
Proof.
  assert (Hlen : (length [rendered white_1x1; rendered sample_image]
                  <= 999)%nat) by (cbn [length]; lia).
  assert (Hall : Forall (decodes decode_ok pil_unused)
                   [rendered white_1x1; rendered sample_image]).
  { constructor; [apply decodes_rendered|].
    constructor; [apply decodes_rendered|constructor]. }
  split_and!; [reflexivity|discriminate|exact Hlen|exact Hall
              |exact no_page_files_empty|].
  exact (debug_agrees_with_plain decode_ok pil_unused chroma_exact
           doc_long [rendered white_1x1; rendered sample_image]
           empty_workspace 1 eq_refl ltac:(discriminate) Hlen Hall
           no_page_files_empty).
Defined.

Lemma debug_keeps_stale_pages_witness :
  pdf_pages doc_long = Some [rendered white_1x1; rendered sample_image]
  /\ pdf_pages doc_white = Some [rendered white_1x1]
  /\ (length [rendered white_1x1; rendered sample_image] <= 999)%nat
  /\ (length [rendered white_1x1] <= 999)%nat
  /\ Forall (decodes decode_ok pil_unused)
       [rendered white_1x1; rendered sample_image]
  /\ Forall (decodes decode_ok pil_unused) [rendered white_1x1]
  /\ (0 < length [rendered white_1x1; rendered sample_image]
          + length [rendered white_1x1])%nat
  /\ no_page_files (images_cleaned empty_workspace)
  /\ output_dir
       (main_loop_debug decode_ok pil_unused chroma_exact
          [doc_long; doc_white] empty_workspace).2 !! pdf_name doc_white
     = Some (cleaned_pages decode_ok pil_unused chroma_exact 1
               [rendered white_1x1]
             ++ drop (length [rendered white_1x1])
                  (cleaned_pages decode_ok pil_unused chroma_exact 1
                     [rendered white_1x1; rendered sample_image])).
Proof.
  assert (HlenA : (length [rendered white_1x1; rendered sample_image]
                   <= 999)%nat) by (cbn [length]; lia).
  assert (HlenB : (length [rendered white_1x1] <= 999)%nat)
    by (cbn [length]; lia).
  assert (HallA : Forall (decodes decode_ok pil_unused)
                    [rendered white_1x1; rendered sample_image]).
  { constructor; [apply decodes_rendered|].
    constructor; [apply decodes_rendered|constructor]. }
  assert (HallB : Forall (decodes decode_ok pil_unused) [rendered white_1x1]).
  { constructor; [apply decodes_rendered|constructor]. }
  assert (Hpos : (0 < length [rendered white_1x1; rendered sample_image]
                      + length [rendered white_1x1])%nat)
    by (cbn [length]; lia).
  split_and!; [reflexivity|reflexivity|exact HlenA|exact HlenB|exact HallA
              |exact HallB|exact Hpos|exact no_page_files_empty|].
  exact (debug_keeps_stale_pages decode_ok pil_unused chroma_exact
           doc_long doc_white [rendered white_1x1; rendered sample_image]
           [rendered white_1x1] empty_workspace 1 eq_refl eq_refl
           HlenA HlenB HallA HallB Hpos no_page_files_empty).
Defined.
